(** * bit-rotate: one-bit rotation of a whole file

    A shallow embedding of [hexegic.cpp]: the command-line program
    [rotate <left|right> <in-file> <out-file>], its instruction parser, the
    streaming rotation over a [std::ifstream] / [std::ofstream] pair, and
    [main].  Stream and C-library calls are modelled by explicit state
    passing; 8-bit values are integers reduced modulo 256. *)

From Stdlib Require Import ZArith List Bool String Ascii Lia.
From Stdlib Require Import Strings.Byte.
Import ListNotations.

Local Open Scope Z_scope.

(** ** Outcomes of running C++ code

    A call either finishes with a value, runs into undefined behaviour
    (here: overflow of a signed [int]), or, for the fuelled loops below,
    stops because the fuel ran out.  The theorems show that the last case
    never happens for the fuel [rotate] provides. *)

Inductive outcome (A : Type) : Type :=
| Finished (a : A)
| UndefinedBehaviour
| OutOfFuel.

Arguments Finished {A} a.
Arguments UndefinedBehaviour {A}.
Arguments OutOfFuel {A}.

Definition outcome_map {A B : Type} (f : A -> B) (o : outcome A) : outcome B :=
  match o with
  | Finished a => Finished (f a)
  | UndefinedBehaviour => UndefinedBehaviour
  | OutOfFuel => OutOfFuel
  end.

Definition outcome_bind {A B : Type} (o : outcome A) (f : A -> outcome B) : outcome B :=
  match o with
  | Finished a => f a
  | UndefinedBehaviour => UndefinedBehaviour
  | OutOfFuel => OutOfFuel
  end.

(** ** 8-bit unsigned values *)

Module U8.

(** Conversion of an [int] to [uint8_t]. *)
Definition of_int (z : Z) : Z := z mod 256.

(** The value of a stored byte, 0..255. *)
Definition of_byte (b : byte) : Z := Z.of_N (Byte.to_N b).

(** The byte holding a [uint8_t]/[char] value. *)
Definition to_byte (z : Z) : byte :=
  match Byte.of_N (Z.to_N (z mod 256)) with
  | Some b => b
  | None => x00
  end.

(** [(x << r) | (x >> (8 - r))] computed in [int] and converted back. *)
Definition rotl_by (x r : Z) : Z :=
  of_int (Z.lor (Z.shiftl x r) (Z.shiftr x (8 - r))).

Definition rotr_by (x r : Z) : Z :=
  of_int (Z.lor (Z.shiftr x r) (Z.shiftl x (8 - r))).

(** [std::rotl<uint8_t>(x, s)]: with [r = s % 8], [x] when [r] is 0,
    the left rotation by [r] when positive and the right rotation by
    [-r] when negative. *)
Definition rotl (x s : Z) : Z :=
  let r := Z.rem s 8 in
  if r =? 0 then x
  else if 0 <? r then rotl_by x r
  else rotr_by x (- r).

(** [std::rotr<uint8_t>(x, s)]. *)
Definition rotr (x s : Z) : Z :=
  let r := Z.rem s 8 in
  if r =? 0 then x
  else if 0 <? r then rotr_by x r
  else rotl_by x (- r).

End U8.

(** ** The instruction *)

Inductive Instruction : Type :=
| LEFT
| RIGHT.

Definition Instruction_eqb (a b : Instruction) : bool :=
  match a, b with
  | LEFT, LEFT | RIGHT, RIGHT => true
  | _, _ => false
  end.

(** ** C strings

    An argument string is the characters of a [string] followed by the
    terminating NUL; a NUL inside the [string] ends it early, as it would
    in memory. *)

Module CStr.

Definition NUL : ascii := Ascii.zero.

(** The character under the pointer, the terminator at the end. *)
Definition deref (s : string) : ascii :=
  match s with
  | EmptyString => NUL
  | String c _ => c
  end.

Definition next (s : string) : string :=
  match s with
  | EmptyString => EmptyString
  | String _ s' => s'
  end.

(** [strnlen(s, maxlen)]. *)
Fixpoint strnlen (s : string) (maxlen : nat) : nat :=
  match maxlen with
  | O => O
  | S m =>
      if Ascii.eqb (deref s) NUL then O
      else S (strnlen (next s) m)
  end.

(** [strncmp(a, b, n)]: the difference of the first pair of differing
    characters (as [unsigned char]) among the first [n], 0 when there is
    none before the terminator. *)
Fixpoint strncmp (a b : string) (n : nat) : Z :=
  match n with
  | O => 0
  | S m =>
      let ca := deref a in
      let cb := deref b in
      if negb (Ascii.eqb ca cb)
      then Z.of_nat (nat_of_ascii ca) - Z.of_nat (nat_of_ascii cb)
      else if Ascii.eqb ca NUL then 0
      else strncmp (next a) (next b) m
  end.

(** [std::string::traits_type::length]. *)
Definition length (s : string) : nat := strnlen s (String.length s).

(** The characters of the C string, up to [n] of them. *)
Fixpoint chars (n : nat) (s : string) : string :=
  match n with
  | O => EmptyString
  | S m =>
      if Ascii.eqb (deref s) NUL then EmptyString
      else String (deref s) (chars m (next s))
  end.

End CStr.

(** ** parse_instruction (lines 44-86) *)

Definition left : string := "left".
Definition left_size : nat := CStr.length left.
Definition right : string := "right".
Definition right_size : nat := CStr.length right.
Definition max_size : nat := Nat.max left_size right_size.

Definition parse_instruction (instruction : string) : option Instruction :=
  if (max_size <? CStr.strnlen instruction (max_size + 1))%nat then None
  else if ((CStr.strnlen instruction left_size =? left_size)%nat
           && (CStr.strncmp left instruction left_size =? 0))
  then Some LEFT
  else if ((CStr.strnlen instruction right_size =? right_size)%nat
           && (CStr.strncmp right instruction right_size =? 0))
  then Some RIGHT
  else None.

(** ** Streams

    [std::ifstream] over a file opened in binary mode: the file's bytes,
    the get position and the state flags the code can set.  Every input
    function first builds a sentry, which sets [failbit] on a stream that
    is not [good()]. *)

Module Stream.

Record ifstream : Type := mk_ifstream {
  contents : list byte;
  gpos : Z;
  eofbit : bool;
  failbit : bool
}.

Record ofstream : Type := mk_ofstream {
  written : list byte
}.

(** [traits::eof()]. *)
Definition EOF : Z := -1.

(** A stream just opened on a file. *)
Definition open_in (bytes : list byte) : ifstream :=
  mk_ifstream bytes 0 false false.

Definition open_out : ofstream := mk_ofstream [].

Definition good (s : ifstream) : bool := negb (eofbit s) && negb (failbit s).
Definition eof (s : ifstream) : bool := eofbit s.
Definition fail (s : ifstream) : bool := failbit s.

Definition set_fail (s : ifstream) : ifstream :=
  mk_ifstream (contents s) (gpos s) (eofbit s) true.
Definition set_eof (s : ifstream) : ifstream :=
  mk_ifstream (contents s) (gpos s) true (failbit s).
Definition clear_eof (s : ifstream) : ifstream :=
  mk_ifstream (contents s) (gpos s) false (failbit s).
Definition set_pos (p : Z) (s : ifstream) : ifstream :=
  mk_ifstream (contents s) p (eofbit s) (failbit s).

Definition size (s : ifstream) : Z := Z.of_nat (List.length (contents s)).

(** The byte under the get position, if there is one. *)
Definition current (s : ifstream) : option byte :=
  if gpos s <? 0 then None else nth_error (contents s) (Z.to_nat (gpos s)).

(** [istream::sentry] with [noskipws]. *)
Definition sentry (s : ifstream) : bool * ifstream :=
  if good s then (true, s) else (false, set_fail s).

(** [tellg()]: -1 on a failed stream. *)
Definition tellg (s : ifstream) : Z * ifstream :=
  let '(_, s) := sentry s in
  if fail s then (-1, s) else (gpos s, s).

(** Both [seekg] overloads clear [eofbit] first; a seek to a negative
    position fails. *)
Definition seek_to (target : Z) (s : ifstream) : ifstream :=
  let s := clear_eof s in
  let '(_, s) := sentry s in
  if fail s then s
  else if target <? 0 then set_fail s
  else set_pos target s.

(** [seekg(pos)]. *)
Definition seekg (pos : Z) (s : ifstream) : ifstream := seek_to pos s.

(** [seekg(off, std::ios_base::end)]. *)
Definition seekg_end (off : Z) (s : ifstream) : ifstream :=
  seek_to (size s + off) s.

(** [peek()]: the next character without extracting it; [EOF], with
    [eofbit] set, at the end of the file. *)
Definition peek (s : ifstream) : Z * ifstream :=
  let '(ok, s) := sentry s in
  if ok then
    match current s with
    | Some c => (U8.of_byte c, s)
    | None => (EOF, set_eof s)
    end
  else (EOF, s).

(** [get()]: extracts the next character; [EOF], with [eofbit] and
    [failbit] set, at the end of the file. *)
Definition get (s : ifstream) : Z * ifstream :=
  let '(ok, s) := sentry s in
  if ok then
    match current s with
    | Some c => (U8.of_byte c, set_pos (gpos s + 1) s)
    | None => (EOF, set_fail (set_eof s))
    end
  else (EOF, s).

(** [put(c)]. *)
Definition put (c : Z) (o : ofstream) : ofstream :=
  mk_ofstream (written o ++ [U8.to_byte c]).

End Stream.

Import Stream.

(** ** rotate (lines 88-148)

    [INT_MAX] for the 32-bit [int] of the Linux ABIs the program builds
    for (it includes [linux/limits.h]). *)

Definition INT_MAX : Z := 2147483647.

Section Rotate.

(** The constant written [0xA0] at lines 104, 117 and 142. *)
Variable mask : Z.

(** The body of the loop at lines 106-122 for the counter value [i].
    The [i+1] of line 114 is [int] arithmetic: it overflows when [i] is
    [INT_MAX], as the [++i] that follows the body would. *)
Definition left_step (i end_position first_bit : Z) (input : ifstream) (output : ofstream)
  : outcome (ifstream * ofstream) :=
  let '(c, input) := get input in
  let character := U8.of_int c in
  let character := U8.rotl character 1 in
  if INT_MAX <? i + 1 then UndefinedBehaviour
  else
    let '(peeked_bit, input) :=
      if i + 1 <? end_position
      then let '(p, input) := peek input in
           let peeked_char := U8.of_int p in
           (U8.of_int (Z.land peeked_char mask), input)
      else (first_bit, input) in
    let character :=
      U8.of_int (Z.lor (Z.land 0xFE character) (Z.land 0x01 (U8.rotr peeked_bit 7))) in
    Finished (input, put character output).

(** [for(int i = 0; i<end_position; ++i)] of the left branch. *)
Fixpoint left_loop (fuel : nat) (i end_position first_bit : Z)
         (input : ifstream) (output : ofstream) : outcome (ifstream * ofstream) :=
  if i <? end_position then
    match fuel with
    | O => OutOfFuel
    | S fuel' =>
        match left_step i end_position first_bit input output with
        | Finished (input, output) =>
            left_loop fuel' (i + 1) end_position first_bit input output
        | UndefinedBehaviour => UndefinedBehaviour
        | OutOfFuel => OutOfFuel
        end
    end
  else Finished (input, output).

(** The body of the loop at lines 135-146 for the counter value [i];
    the new [saved_bit] is returned with the streams.  [++i] overflows
    when [i] is [INT_MAX]. *)
Definition right_step (i saved_bit : Z) (input : ifstream) (output : ofstream)
  : outcome (Z * ifstream * ofstream) :=
  let '(c, input) := get input in
  let character := U8.of_int c in
  let next_bit := U8.of_int (Z.land character 0x01) in
  let character := U8.rotr character 1 in
  let character :=
    U8.of_int (Z.lor (Z.land 0x7F character) (Z.land mask (U8.rotl saved_bit 7))) in
  let output := put character output in
  if INT_MAX <? i + 1 then UndefinedBehaviour
  else Finished (next_bit, input, output).

(** [for(int i = 0; i<end_position; ++i)] of the right branch. *)
Fixpoint right_loop (fuel : nat) (i end_position saved_bit : Z)
         (input : ifstream) (output : ofstream) : outcome (ifstream * ofstream) :=
  if i <? end_position then
    match fuel with
    | O => OutOfFuel
    | S fuel' =>
        match right_step i saved_bit input output with
        | Finished (saved_bit, input, output) =>
            right_loop fuel' (i + 1) end_position saved_bit input output
        | UndefinedBehaviour => UndefinedBehaviour
        | OutOfFuel => OutOfFuel
        end
    end
  else Finished (input, output).

Definition rotate_left (end_position : Z) (input : ifstream) (output : ofstream)
  : outcome (ifstream * ofstream) :=
  let '(p, input) := peek input in
  let peeked_char := U8.of_int p in
  let first_bit := U8.of_int (Z.land peeked_char mask) in
  left_loop (Z.to_nat end_position) 0 end_position first_bit input output.

Definition rotate_right (start_position end_position : Z) (input : ifstream) (output : ofstream)
  : outcome (ifstream * ofstream) :=
  let input := seekg_end (-1) input in
  let '(p, input) := peek input in
  let peeked_char := U8.of_int p in
  let saved_bit := U8.of_int (Z.land peeked_char 0x01) in
  let input := seekg start_position input in
  right_loop (Z.to_nat end_position) 0 end_position saved_bit input output.

Definition rotate_with (input : ifstream) (output : ofstream) (instruction : Instruction)
  : outcome (ifstream * ofstream) :=
  let '(start_position, input) := tellg input in
  let input := seekg_end 0 input in
  let '(end_position, input) := tellg input in
  let input := seekg start_position input in
  outcome_bind
    (if Instruction_eqb instruction LEFT
     then rotate_left end_position input output
     else Finished (input, output))
    (fun '(input, output) =>
       if Instruction_eqb instruction RIGHT
       then rotate_right start_position end_position input output
       else Finished (input, output)).

End Rotate.

(** The function as written. *)
Definition rotate : ifstream -> ofstream -> Instruction -> outcome (ifstream * ofstream) :=
  rotate_with 0xA0.

(** The bytes [rotate] writes for a file holding [b], read from its start
    into an empty output: the [rotate(b, d)] of the specification. *)
Definition rotate_bytes (b : list byte) (d : Instruction) : outcome (list byte) :=
  outcome_map (fun '(_, output) => written output) (rotate (open_in b) open_out d).

(** ** main (lines 150-213)

    The environment gives, for a path, the bytes of the file an
    [ifstream] opened on it would read ([None]: the open fails) and whether
    an [ofstream] can be opened on it.  Paths are told apart by their
    spelling.  A run reports the exit code, what it did to the files, and
    the bytes of the output file if it was opened.

    The environment describes runs on two distinct regular files.  Two
    cases of the program are outside it: an output path that names the
    input's file under another spelling, where opening the output at
    line 186 truncates the file the input reads, and a path that names
    no regular file, where [std::filesystem::file_size] at line 206
    throws and the program is terminated.  The theorems about [main]
    therefore concern the exits before line 186, the messages of the runs
    that return, and runs on two distinct regular files given
    explicitly. *)

Definition EXIT_SUCCESS : Z := 0.
Definition EXIT_FAILURE : Z := 1.

(** [PATH_MAX] of [linux/limits.h]. *)
Definition PATH_MAX : nat := 4096.

Record Env : Type := mk_Env {
  readable : string -> option (list byte);
  writable : string -> bool
}.

Inductive event : Type :=
| OpenInput (path : string)
| OpenOutput (path : string)
| CallRotate (instruction : Instruction).

Record Run : Type := mk_Run {
  exit_code : Z;
  events : list event;
  output_file : option (list byte)
}.

(** The guard at line 168. *)
Definition same_path (a b : string) : bool := CStr.strncmp a b PATH_MAX =? 0.

Definition main (env : Env) (argv : list string) : outcome Run :=
  let argc := List.length argv in
  if negb (argc =? 4)%nat then Finished (mk_Run EXIT_FAILURE [] None)
  else
    let argv1 := nth 1 argv EmptyString in
    let argv2 := nth 2 argv EmptyString in
    let argv3 := nth 3 argv EmptyString in
    match parse_instruction argv1 with
    | None => Finished (mk_Run EXIT_FAILURE [] None)
    | Some instruction =>
        if same_path argv2 argv3 then Finished (mk_Run EXIT_FAILURE [] None)
        else
          match readable env argv2 with
          | None => Finished (mk_Run EXIT_FAILURE [OpenInput argv2] None)
          | Some bytes =>
              let input := open_in bytes in
              if negb (writable env argv3)
              then Finished (mk_Run EXIT_FAILURE [OpenInput argv2; OpenOutput argv3] None)
              else
                let output := open_out in
                if eof input
                then Finished (mk_Run EXIT_SUCCESS [OpenInput argv2; OpenOutput argv3]
                                      (Some (written output)))
                else
                  let trace := [OpenInput argv2; OpenOutput argv3; CallRotate instruction] in
                  match rotate input output instruction with
                  | Finished (_, output) =>
                      if negb (List.length bytes =? List.length (written output))%nat
                      then Finished (mk_Run EXIT_FAILURE trace (Some (written output)))
                      else Finished (mk_Run EXIT_SUCCESS trace (Some (written output)))
                  | UndefinedBehaviour => UndefinedBehaviour
                  | OutOfFuel => OutOfFuel
                  end
          end
    end.

(** An environment with one readable file, every other path writable. *)
Definition one_file (path : string) (bytes : list byte) : Env :=
  mk_Env (fun p => if String.eqb p path then Some bytes else None)
         (fun p => negb (String.eqb p path)).

(** ** The rotation as functions on byte lists

    What the two loops write, read off the loop bodies: the left loop
    carries the masked look-ahead character, the right loop the saved
    bit. *)

Section Runs.

Variable mask : Z.

(** Lines 109 and 119 for the character [c] and the masked look-ahead. *)
Definition left_char (c peeked_bit : Z) : Z :=
  U8.of_int (Z.lor (Z.land 0xFE (U8.rotl (U8.of_int c) 1))
                   (Z.land 0x01 (U8.rotr peeked_bit 7))).

(** Lines 104 and 117 for the peeked value [p]. *)
Definition masked (p : Z) : Z := U8.of_int (Z.land (U8.of_int p) mask).

(** Lines 140 and 142. *)
Definition right_char (c saved_bit : Z) : Z :=
  U8.of_int (Z.lor (Z.land 0x7F (U8.rotr (U8.of_int c) 1))
                   (Z.land mask (U8.rotl saved_bit 7))).

(** Lines 131 and 138. *)
Definition low_bit (c : Z) : Z := U8.of_int (Z.land (U8.of_int c) 0x01).

Fixpoint left_run (first_bit : Z) (l : list byte) : list byte :=
  match l with
  | [] => []
  | c :: rest =>
      let peeked_bit :=
        match rest with
        | [] => first_bit
        | p :: _ => masked (U8.of_byte p)
        end in
      U8.to_byte (left_char (U8.of_byte c) peeked_bit) :: left_run first_bit rest
  end.

Fixpoint right_run (saved_bit : Z) (l : list byte) : list byte :=
  match l with
  | [] => []
  | c :: rest =>
      U8.to_byte (right_char (U8.of_byte c) saved_bit)
        :: right_run (low_bit (U8.of_byte c)) rest
  end.

(** The value [peek()] gives at the start of [l]. *)
Definition peek_value (l : list byte) : Z :=
  match l with
  | [] => EOF
  | c :: _ => U8.of_byte c
  end.

Definition left_rot (b : list byte) : list byte :=
  left_run (masked (peek_value b)) b.

Definition right_rot (b : list byte) : list byte :=
  right_run (low_bit (peek_value (skipn (List.length b - 1) b))) b.

End Runs.

(** ** The specification's per-byte formulas *)

Module Reference.

(** [x << k] on 8-bit unsigned values. *)
Definition shl8 (x k : Z) : Z := (Z.shiftl x k) mod 256.

(** [((x << 1 | x >> 7) & 0xFE) | (y >> 7)]. *)
Definition left_byte (x y : Z) : Z :=
  Z.lor (Z.land (Z.lor (shl8 x 1) (Z.shiftr x 7)) 0xFE) (Z.shiftr y 7).

(** [((x >> 1 | x << 7) & 0x7F) | ((y & 0x01) << 7)]. *)
Definition right_byte (x y : Z) : Z :=
  Z.lor (Z.land (Z.lor (Z.shiftr x 1) (shl8 x 7)) 0x7F) (shl8 (Z.land y 0x01) 7).

Definition at_index (b : list byte) (i : nat) : Z := U8.of_byte (nth i b x00).

(** [out[i]] for [i] in [0..N-1], with [next = (i+1) mod N]. *)
Definition rotate_left (b : list byte) : list byte :=
  let N := List.length b in
  map (fun i => U8.to_byte (left_byte (at_index b i) (at_index b ((i + 1) mod N)%nat)))
      (seq 0 N).

(** [out[i]] for [i] in [0..N-1], with [prev = (i-1+N) mod N]. *)
Definition rotate_right (b : list byte) : list byte :=
  let N := List.length b in
  map (fun i => U8.to_byte (right_byte (at_index b i) (at_index b ((i + N - 1) mod N)%nat)))
      (seq 0 N).

Definition rotate (b : list byte) (d : Instruction) : list byte :=
  match d with
  | LEFT => rotate_left b
  | RIGHT => rotate_right b
  end.

End Reference.

(** ** The file as one bit sequence (lines 12-16)

    Most significant bit of the first byte first. *)

Module Bits.

Definition of_u8 (z : Z) : list bool :=
  [Z.testbit z 7; Z.testbit z 6; Z.testbit z 5; Z.testbit z 4;
   Z.testbit z 3; Z.testbit z 2; Z.testbit z 1; Z.testbit z 0].

Definition of_bytes (b : list byte) : list bool :=
  flat_map (fun c => of_u8 (U8.of_byte c)) b.

(** [b1 ... bN b0]. *)
Definition rotl1 (l : list bool) : list bool :=
  match l with
  | [] => []
  | h :: t => t ++ [h]
  end.

Fixpoint to_u8_from (acc : Z) (l : list bool) : Z :=
  match l with
  | [] => acc
  | x :: t => to_u8_from (2 * acc + Z.b2z x) t
  end.

Definition to_u8 (l : list bool) : Z := to_u8_from 0 l.

End Bits.

(** ** Repeated rotation *)

Definition rotate_times (k : nat) (d : Instruction) (b : list byte) : outcome (list byte) :=
  Nat.iter k (fun o => outcome_bind o (fun x => rotate_bytes x d)) (Finished b).

(** A file of [INT_MAX + 1] zero bytes. *)
Definition two_gib : list byte := repeat x00 (Z.to_nat (INT_MAX + 1)).

(** Exhaustive check of a predicate on [0 .. n-1]. *)
Fixpoint all_below (n : nat) (f : Z -> bool) : bool :=
  match n with
  | O => true
  | S k => f (Z.of_nat k) && all_below k f
  end.

(** ** Auxiliary definitions for the proofs *)

(** A stream over [b] at position [i] with no state flag set. *)
Definition clean (b : list byte) (i : Z) : ifstream := mk_ifstream b i false false.

(** Bit 7 of an 8-bit value, as 0 or 1. *)
Definition msb (z : Z) : Z := Z.shiftr z 7.

(** What [rotate] writes for a file of at most [INT_MAX] bytes. *)
Definition pure_rot (d : Instruction) : list byte -> list byte :=
  match d with
  | LEFT => left_rot 0xA0
  | RIGHT => right_rot 0xA0
  end.


(** The token the usage text gives for an instruction. *)
Definition token (d : Instruction) : string :=
  match d with
  | LEFT => left
  | RIGHT => right
  end.


Fixpoint bits_eqb (l1 l2 : list bool) : bool :=
  match l1, l2 with
  | [], [] => true
  | x :: t1, y :: t2 => Bool.eqb x y && bits_eqb t1 t2
  | _, _ => false
  end.

(** ** What the program writes to [std::cerr]

    The text sent to [std::cerr] is modelled as one string, each
    [<<] appending to it; [std::endl] is a line feed. *)

Definition endl : string := String (ascii_of_nat 10) EmptyString.

(** [print_help] (lines 32-36): the usage text. *)
Definition print_help : string :=
  ("Usage:" ++ endl ++ "  rotate <left|right> <in-file> <out-file>" ++ endl)%string.

(** [parse_instruction] (lines 44-86) with what it writes to [std::cerr]. *)
Definition parse_instruction_log (instruction : string) : option Instruction * string :=
  if (max_size <? CStr.strnlen instruction (max_size + 1))%nat
  then (None, ("ERROR: The instruction is too long" ++ endl ++ print_help)%string)
  else if ((CStr.strnlen instruction left_size =? left_size)%nat
           && (CStr.strncmp left instruction left_size =? 0))
  then (Some LEFT, EmptyString)
  else if ((CStr.strnlen instruction right_size =? right_size)%nat
           && (CStr.strncmp right instruction right_size =? 0))
  then (Some RIGHT, EmptyString)
  else (None, ("ERROR: The instruction is invalid" ++ endl ++ print_help)%string).

(** [main] (lines 150-213) with what it writes to [std::cerr]. *)
Definition main_log (env : Env) (argv : list string) : outcome (Run * string) :=
  let argc := List.length argv in
  if negb (argc =? 4)%nat then Finished (mk_Run EXIT_FAILURE [] None, print_help)
  else
    let argv1 := nth 1 argv EmptyString in
    let argv2 := nth 2 argv EmptyString in
    let argv3 := nth 3 argv EmptyString in
    match parse_instruction_log argv1 with
    | (None, err) =>
        Finished (mk_Run EXIT_FAILURE [] None,
                  (err ++ "ERROR: Rotation instruction could not be parsed" ++ endl)%string)
    | (Some instruction, err) =>
        if same_path argv2 argv3
        then Finished (mk_Run EXIT_FAILURE [] None,
                       (err ++ "ERROR: There is no support to reading and writing to the same file"
                            ++ endl)%string)
        else
          match readable env argv2 with
          | None =>
              Finished (mk_Run EXIT_FAILURE [OpenInput argv2] None,
                        (err ++ "ERROR: Input file could not be opened" ++ endl
                             ++ print_help)%string)
          | Some bytes =>
              let input := open_in bytes in
              if negb (writable env argv3)
              then Finished (mk_Run EXIT_FAILURE [OpenInput argv2; OpenOutput argv3] None,
                             (err ++ "ERROR: Output file could not be opened" ++ endl
                                  ++ print_help)%string)
              else
                let output := open_out in
                if eof input
                then Finished (mk_Run EXIT_SUCCESS [OpenInput argv2; OpenOutput argv3]
                                      (Some (written output)), err)
                else
                  let trace := [OpenInput argv2; OpenOutput argv3; CallRotate instruction] in
                  match rotate input output instruction with
                  | Finished (_, output) =>
                      if negb (List.length bytes =? List.length (written output))%nat
                      then Finished (mk_Run EXIT_FAILURE trace (Some (written output)),
                                     (err ++ "ERROR: Processing failed, output file is wrong size."
                                          ++ endl)%string)
                      else Finished (mk_Run EXIT_SUCCESS trace (Some (written output)), err)
                  | UndefinedBehaviour => UndefinedBehaviour
                  | OutOfFuel => OutOfFuel
                  end
          end
    end.

(** ** Rotations of a list by one place *)

(** [x1 ... xN x0]. *)
Definition first_to_end {A : Type} (l : list A) : list A :=
  match l with
  | [] => []
  | h :: t => t ++ [h]
  end.

(** [xN x0 ... xM]. *)
Definition last_to_front {A : Type} (l : list A) : list A :=
  match l with
  | [] => []
  | h :: t => last l h :: removelast l
  end.

(** The number of set bits. *)
Definition ones (l : list bool) : nat := List.length (filter (fun x => x) l).

(** All bits of the list are the same. *)
Definition uniform (l : list bool) : Prop :=
  forall x y : bool, In x l -> In y l -> x = y.

(** * Proofs *)

(** ** Exhaustive checks over the 8-bit range *)

Lemma all_below_spec (f : Z -> bool) (n : nat) :
  all_below n f = true -> forall z, 0 <= z < Z.of_nat n -> f z = true.
Proof.
  induction n as [|k IH]; intros Hall z Hz.
  - simpl in Hz. lia.
  - simpl in Hall. apply andb_true_iff in Hall. destruct Hall as [Hk Hrest].
    destruct (Z.eq_dec z (Z.of_nat k)) as [->|Hne]; [exact Hk|].
    apply IH; [exact Hrest | lia].
Qed.

Ltac by_range :=
  first
    [ refine (all_below_spec (fun z => _) 256 _); vm_compute; reflexivity
    | fail "range check failed" ].

Lemma u8_range (c : byte) : 0 <= U8.of_byte c < Z.of_nat 256.
Proof.
  unfold U8.of_byte. pose proof (Byte.to_N_bounded c) as H.
  change (Z.of_nat 256) with 256. lia.
Qed.

Lemma of_int_range (z : Z) : 0 <= U8.of_int z < Z.of_nat 256.
Proof.
  unfold U8.of_int. change (Z.of_nat 256) with 256. apply Z.mod_pos_bound. lia.
Qed.

Lemma to_byte_of_byte (c : byte) : U8.to_byte (U8.of_byte c) = c.
Proof.
  unfold U8.to_byte. pose proof (u8_range c) as H.
  change (Z.of_nat 256) with 256 in H.
  rewrite Z.mod_small by exact H.
  unfold U8.of_byte. rewrite N2Z.id, Byte.of_to_N. reflexivity.
Qed.

Lemma of_byte_to_byte (z : Z) : U8.of_byte (U8.to_byte z) = U8.of_int z.
Proof.
  unfold U8.to_byte, U8.of_byte, U8.of_int.
  assert (Hr : 0 <= z mod 256 < 256) by (apply Z.mod_pos_bound; lia).
  destruct (Byte.of_N (Z.to_N (z mod 256))) as [b|] eqn:E.
  - apply Byte.to_of_N in E. rewrite E. rewrite Z2N.id by lia. reflexivity.
  - apply Byte.of_N_None_iff in E. lia.
Qed.

(** ** Streams in a clean state *)

Lemma nth_error_middle (pre : list byte) (c : byte) (rest : list byte) :
  nth_error (pre ++ c :: rest) (List.length pre) = Some c.
Proof.
  induction pre as [|x pre IH]; simpl; [reflexivity | exact IH].
Qed.

Lemma get_clean (b : list byte) (i : Z) (c : byte) :
  0 <= i -> nth_error b (Z.to_nat i) = Some c ->
  get (clean b i) = (U8.of_byte c, clean b (i + 1)).
Proof.
  intros Hi Hc. unfold get, sentry, good, clean, current. simpl.
  destruct (i <? 0) eqn:E; [apply Z.ltb_lt in E; lia|].
  rewrite Hc. reflexivity.
Qed.

Lemma peek_clean (b : list byte) (i : Z) (c : byte) :
  0 <= i -> nth_error b (Z.to_nat i) = Some c ->
  peek (clean b i) = (U8.of_byte c, clean b i).
Proof.
  intros Hi Hc. unfold peek, sentry, good, clean, current. simpl.
  destruct (i <? 0) eqn:E; [apply Z.ltb_lt in E; lia|].
  rewrite Hc. reflexivity.
Qed.

(** ** The loops *)

Section Loops.

Variable mask : Z.

Lemma left_step_at (b pre : list byte) (c : byte) (rest : list byte)
      (first_bit : Z) (output : ofstream) :
  b = pre ++ c :: rest ->
  Z.of_nat (List.length pre) + 1 <= INT_MAX ->
  left_step mask (Z.of_nat (List.length pre)) (Z.of_nat (List.length b)) first_bit
            (clean b (Z.of_nat (List.length pre))) output
  = Finished
      (clean b (Z.of_nat (List.length pre) + 1),
       mk_ofstream
         (written output ++
          [U8.to_byte
             (left_char (U8.of_byte c)
                match rest with
                | [] => first_bit
                | p :: _ => masked mask (U8.of_byte p)
                end)])).
Proof.
  intros Hb Hi. set (i := Z.of_nat (List.length pre)) in *.
  assert (Hlen : Z.of_nat (List.length b) = i + 1 + Z.of_nat (List.length rest)).
  { subst b i. rewrite length_app. simpl. lia. }
  unfold left_step.
  rewrite (get_clean b i c).
  2: { subst i; lia. }
  2: { subst i b. rewrite Nat2Z.id. apply nth_error_middle. }
  destruct (INT_MAX <? i + 1) eqn:E; [apply Z.ltb_lt in E; lia|].
  destruct rest as [|p r].
  - simpl in Hlen. replace (Z.of_nat (List.length b)) with (i + 1) by lia.
    rewrite Z.ltb_irrefl. reflexivity.
  - assert (Hlt : (i + 1 <? Z.of_nat (List.length b)) = true).
    { apply Z.ltb_lt. simpl List.length in Hlen. lia. }
    rewrite Hlt.
    rewrite (peek_clean b (i + 1) p).
    + reflexivity.
    + subst i; lia.
    + subst i b.
      replace (Z.to_nat (Z.of_nat (List.length pre) + 1)) with (List.length (pre ++ [c])).
      * replace (pre ++ c :: p :: r) with ((pre ++ [c]) ++ p :: r)
          by (rewrite <- app_assoc; reflexivity).
        apply nth_error_middle.
      * rewrite length_app. simpl. lia.
Qed.

Lemma left_loop_run (rest : list byte) :
  forall (b pre : list byte) (fuel : nat) (first_bit : Z) (output : ofstream),
    b = pre ++ rest ->
    Z.of_nat (List.length b) <= INT_MAX ->
    (List.length rest <= fuel)%nat ->
    left_loop mask fuel (Z.of_nat (List.length pre)) (Z.of_nat (List.length b)) first_bit
              (clean b (Z.of_nat (List.length pre))) output
    = Finished (clean b (Z.of_nat (List.length b)),
                mk_ofstream (written output ++ left_run mask first_bit rest)).
Proof.
  induction rest as [|c rest IH]; intros b pre fuel first_bit output Hb Hmax Hfuel.
  - rewrite app_nil_r in Hb. subst pre.
    destruct fuel; simpl; rewrite Z.ltb_irrefl, app_nil_r; destruct output; reflexivity.
  - assert (Hlen : Z.of_nat (List.length b) = Z.of_nat (List.length pre) + 1 + Z.of_nat (List.length rest)).
    { subst b. rewrite length_app. simpl. lia. }
    destruct fuel as [|fuel]; [simpl in Hfuel; lia|].
    simpl left_loop.
    destruct (Z.of_nat (List.length pre) <? Z.of_nat (List.length b)) eqn:E;
      [|apply Z.ltb_ge in E; lia].
    rewrite (left_step_at b pre c rest first_bit output Hb) by lia.
    replace (Z.of_nat (List.length pre) + 1) with (Z.of_nat (List.length (pre ++ [c])))
      by (rewrite length_app; simpl; lia).
    rewrite (IH b (pre ++ [c]) fuel first_bit).
    + simpl written. rewrite <- app_assoc. reflexivity.
    + subst b. rewrite <- app_assoc. reflexivity.
    + exact Hmax.
    + simpl in Hfuel. lia.
Qed.

(** Past [INT_MAX] bytes the counter overflows before the loop ends. *)
Lemma left_loop_overflow (rest : list byte) :
  forall (b pre : list byte) (fuel : nat) (first_bit : Z) (output : ofstream),
    b = pre ++ rest ->
    INT_MAX < Z.of_nat (List.length b) ->
    Z.of_nat (List.length pre) <= INT_MAX ->
    (List.length rest <= fuel)%nat ->
    left_loop mask fuel (Z.of_nat (List.length pre)) (Z.of_nat (List.length b)) first_bit
              (clean b (Z.of_nat (List.length pre))) output
    = UndefinedBehaviour.
Proof.
  induction rest as [|c rest IH]; intros b pre fuel first_bit output Hb Hmax Hpre Hfuel.
  - rewrite app_nil_r in Hb. subst pre. lia.
  - destruct fuel as [|fuel]; [simpl in Hfuel; lia|].
    simpl left_loop.
    destruct (Z.of_nat (List.length pre) <? Z.of_nat (List.length b)) eqn:E;
      [|apply Z.ltb_ge in E; lia].
    destruct (Z.eq_dec (Z.of_nat (List.length pre)) INT_MAX) as [Heq|Hne].
    + unfold left_step.
      destruct (get (clean b (Z.of_nat (List.length pre)))) as [g input].
      destruct (INT_MAX <? Z.of_nat (List.length pre) + 1) eqn:E';
        [reflexivity | apply Z.ltb_ge in E'; lia].
    + rewrite (left_step_at b pre c rest first_bit output Hb) by lia.
      replace (Z.of_nat (List.length pre) + 1) with (Z.of_nat (List.length (pre ++ [c])))
        by (rewrite length_app; simpl; lia).
      apply IH.
      * subst b. rewrite <- app_assoc. reflexivity.
      * exact Hmax.
      * rewrite length_app. simpl. lia.
      * simpl in Hfuel. lia.
Qed.

Lemma right_step_at (b pre : list byte) (c : byte) (rest : list byte)
      (saved_bit : Z) (output : ofstream) :
  b = pre ++ c :: rest ->
  Z.of_nat (List.length pre) + 1 <= INT_MAX ->
  right_step mask (Z.of_nat (List.length pre)) saved_bit
             (clean b (Z.of_nat (List.length pre))) output
  = Finished
      (low_bit (U8.of_byte c),
       clean b (Z.of_nat (List.length pre) + 1),
       mk_ofstream (written output ++ [U8.to_byte (right_char mask (U8.of_byte c) saved_bit)])).
Proof.
  intros Hb Hi. unfold right_step.
  rewrite (get_clean b (Z.of_nat (List.length pre)) c).
  2: lia.
  2: { subst b. rewrite Nat2Z.id. apply nth_error_middle. }
  destruct (INT_MAX <? Z.of_nat (List.length pre) + 1) eqn:E;
    [apply Z.ltb_lt in E; lia|].
  reflexivity.
Qed.

Lemma right_loop_run (rest : list byte) :
  forall (b pre : list byte) (fuel : nat) (saved_bit : Z) (output : ofstream),
    b = pre ++ rest ->
    Z.of_nat (List.length b) <= INT_MAX ->
    (List.length rest <= fuel)%nat ->
    right_loop mask fuel (Z.of_nat (List.length pre)) (Z.of_nat (List.length b)) saved_bit
               (clean b (Z.of_nat (List.length pre))) output
    = Finished (clean b (Z.of_nat (List.length b)),
                mk_ofstream (written output ++ right_run mask saved_bit rest)).
Proof.
  induction rest as [|c rest IH]; intros b pre fuel saved_bit output Hb Hmax Hfuel.
  - rewrite app_nil_r in Hb. subst pre.
    destruct fuel; simpl; rewrite Z.ltb_irrefl, app_nil_r; destruct output; reflexivity.
  - assert (Hlen : Z.of_nat (List.length b)
                   = Z.of_nat (List.length pre) + 1 + Z.of_nat (List.length rest)).
    { subst b. rewrite length_app. simpl. lia. }
    destruct fuel as [|fuel]; [simpl in Hfuel; lia|].
    simpl right_loop.
    destruct (Z.of_nat (List.length pre) <? Z.of_nat (List.length b)) eqn:E;
      [|apply Z.ltb_ge in E; lia].
    rewrite (right_step_at b pre c rest saved_bit output Hb) by lia.
    replace (Z.of_nat (List.length pre) + 1) with (Z.of_nat (List.length (pre ++ [c])))
      by (rewrite length_app; simpl; lia).
    rewrite (IH b (pre ++ [c]) fuel).
    + simpl written. rewrite <- app_assoc. reflexivity.
    + subst b. rewrite <- app_assoc. reflexivity.
    + exact Hmax.
    + simpl in Hfuel. lia.
Qed.

Lemma right_loop_overflow (rest : list byte) :
  forall (b pre : list byte) (fuel : nat) (saved_bit : Z) (output : ofstream),
    b = pre ++ rest ->
    INT_MAX < Z.of_nat (List.length b) ->
    Z.of_nat (List.length pre) <= INT_MAX ->
    (List.length rest <= fuel)%nat ->
    right_loop mask fuel (Z.of_nat (List.length pre)) (Z.of_nat (List.length b)) saved_bit
               (clean b (Z.of_nat (List.length pre))) output
    = UndefinedBehaviour.
Proof.
  induction rest as [|c rest IH]; intros b pre fuel saved_bit output Hb Hmax Hpre Hfuel.
  - rewrite app_nil_r in Hb. subst pre. lia.
  - destruct fuel as [|fuel]; [simpl in Hfuel; lia|].
    simpl right_loop.
    destruct (Z.of_nat (List.length pre) <? Z.of_nat (List.length b)) eqn:E;
      [|apply Z.ltb_ge in E; lia].
    destruct (Z.eq_dec (Z.of_nat (List.length pre)) INT_MAX) as [Heq|Hne].
    + unfold right_step.
      destruct (get (clean b (Z.of_nat (List.length pre)))) as [g input].
      destruct (INT_MAX <? Z.of_nat (List.length pre) + 1) eqn:E';
        [reflexivity | apply Z.ltb_ge in E'; lia].
    + rewrite (right_step_at b pre c rest saved_bit output Hb) by lia.
      replace (Z.of_nat (List.length pre) + 1) with (Z.of_nat (List.length (pre ++ [c])))
        by (rewrite length_app; simpl; lia).
      apply IH.
      * subst b. rewrite <- app_assoc. reflexivity.
      * exact Hmax.
      * rewrite length_app. simpl. lia.
      * simpl in Hfuel. lia.
Qed.

(** *** The calls around the loops *)

Lemma seek_to_clean (b : list byte) (i target : Z) :
  0 <= target -> seek_to target (clean b i) = clean b target.
Proof.
  intros H. unfold seek_to, clear_eof, sentry, good, fail, clean. simpl.
  destruct (target <? 0) eqn:E; [apply Z.ltb_lt in E; lia | reflexivity].
Qed.

Lemma tellg_clean (b : list byte) (i : Z) : tellg (clean b i) = (i, clean b i).
Proof. reflexivity. Qed.

Lemma peek_value_first (b : list byte) :
  b <> [] -> peek (clean b 0) = (peek_value b, clean b 0).
Proof.
  destruct b as [|c r]; [congruence|]. intros _. reflexivity.
Qed.

Lemma skipn_last_cons (b : list byte) :
  b <> [] ->
  exists pre c, b = pre ++ [c] /\ skipn (List.length b - 1) b = [c].
Proof.
  intros Hb. destruct (exists_last Hb) as [pre [c Hpc]].
  exists pre, c. split; [exact Hpc|].
  subst b. rewrite length_app. simpl.
  replace (List.length pre + 1 - 1)%nat with (List.length pre) by lia.
  rewrite skipn_app, skipn_all, Nat.sub_diag. reflexivity.
Qed.

Lemma peek_value_last (b : list byte) :
  b <> [] ->
  peek (clean b (Z.of_nat (List.length b) - 1))
  = (peek_value (skipn (List.length b - 1) b), clean b (Z.of_nat (List.length b) - 1)).
Proof.
  intros Hb. destruct (skipn_last_cons b Hb) as [pre [c [Hpc Hskip]]].
  rewrite Hskip. simpl peek_value.
  assert (Hlen : Z.of_nat (List.length b) - 1 = Z.of_nat (List.length pre)).
  { subst b. rewrite length_app. simpl. lia. }
  rewrite Hlen. apply peek_clean; [lia|].
  rewrite Nat2Z.id. subst b. apply nth_error_middle.
Qed.

(** What [rotate] does on a freshly opened file: the bytes of
    [left_rot] or [right_rot] when the file has at most [INT_MAX]
    bytes, overflow of the loop counter when it is longer. *)
Lemma rotate_with_open (b : list byte) (d : Instruction) :
  outcome_map (fun '(_, output) => written output) (rotate_with mask (open_in b) open_out d)
  = if Z.of_nat (List.length b) <=? INT_MAX
    then Finished (match d with
                   | LEFT => left_rot mask b
                   | RIGHT => right_rot mask b
                   end)
    else UndefinedBehaviour.
Proof.
  destruct b as [|c0 r0] eqn:Eb.
  - destruct d; reflexivity.
  - rewrite <- Eb. assert (Hne : b <> []) by (rewrite Eb; discriminate).
    clear Eb c0 r0.
    assert (Hpos : 0 < Z.of_nat (List.length b)).
    { destruct b; [congruence | simpl; lia]. }
    unfold rotate_with. change (open_in b) with (clean b 0).
    rewrite tellg_clean. unfold seekg_end, seekg.
    rewrite seek_to_clean by (unfold size; simpl; lia).
    replace (size (clean b 0) + 0) with (Z.of_nat (List.length b))
      by (unfold size; simpl; lia).
    rewrite tellg_clean, seek_to_clean by lia.
    destruct d; simpl Instruction_eqb; cbv iota.
    + unfold rotate_left. rewrite (peek_value_first b Hne).
      change (clean b 0) with (clean b (Z.of_nat (List.length (@nil byte)))).
      destruct (Z.of_nat (List.length b) <=? INT_MAX) eqn:E.
      * apply Z.leb_le in E.
        rewrite (left_loop_run b b []); [reflexivity | reflexivity | exact E |].
        rewrite Nat2Z.id. lia.
      * apply Z.leb_gt in E.
        rewrite (left_loop_overflow b b []); [reflexivity | reflexivity | exact E | |].
        -- simpl. unfold INT_MAX. lia.
        -- rewrite Nat2Z.id. lia.
    + simpl outcome_bind. unfold rotate_right, seekg_end, seekg.
      rewrite seek_to_clean by (unfold size; simpl; lia).
      replace (size (clean b 0) + -1) with (Z.of_nat (List.length b) - 1)
        by (unfold size; simpl; lia).
      rewrite (peek_value_last b Hne).
      rewrite seek_to_clean by lia.
      change (clean b 0) with (clean b (Z.of_nat (List.length (@nil byte)))).
      destruct (Z.of_nat (List.length b) <=? INT_MAX) eqn:E.
      * apply Z.leb_le in E.
        rewrite (right_loop_run b b []); [reflexivity | reflexivity | exact E |].
        rewrite Nat2Z.id. lia.
      * apply Z.leb_gt in E.
        rewrite (right_loop_overflow b b []); [reflexivity | reflexivity | exact E | |].
        -- simpl. unfold INT_MAX. lia.
        -- rewrite Nat2Z.id. lia.
Qed.

End Loops.

(** ** Facts about one or two 8-bit values, checked on the whole range *)

Lemma bits_eqb_eq (l1 l2 : list bool) : bits_eqb l1 l2 = true -> l1 = l2.
Proof.
  revert l2. induction l1 as [|x t1 IH]; intros [|y t2] H; simpl in H;
    try discriminate; [reflexivity|].
  apply andb_true_iff in H. destruct H as [Hxy Ht].
  apply Bool.eqb_prop in Hxy. subst y. f_equal. apply IH. exact Ht.
Qed.

Lemma range2 (f : Z -> Z -> bool) :
  all_below 256 (fun x => all_below 256 (f x)) = true ->
  forall x y, 0 <= x < Z.of_nat 256 -> 0 <= y < Z.of_nat 256 -> f x y = true.
Proof.
  intros H x y Hx Hy.
  apply (all_below_spec (f x) 256); [|exact Hy].
  apply (all_below_spec (fun x => all_below 256 (f x)) 256); assumption.
Qed.

Lemma low_bit_cases (c : Z) : low_bit c = 0 \/ low_bit c = 1.
Proof.
  unfold low_bit. generalize (of_int_range c). generalize (U8.of_int c).
  intros z Hz.
  assert (H : ((U8.of_int (Z.land z 1) =? 0) || (U8.of_int (Z.land z 1) =? 1)) = true).
  { revert z Hz. by_range. }
  apply orb_true_iff in H. destruct H as [H|H]; apply Z.eqb_eq in H; auto.
Qed.

(** The code's left byte is the specification's. *)
Lemma left_char_reference (x y : Z) :
  0 <= x < Z.of_nat 256 -> 0 <= y < Z.of_nat 256 ->
  left_char x (masked 0xA0 y) = Reference.left_byte x y.
Proof.
  intros Hx Hy. apply Z.eqb_eq. revert x y Hx Hy.
  refine (range2 (fun x y => _) _). vm_compute. reflexivity.
Qed.

(** The code's right byte is the specification's. *)
Lemma right_char_reference (x y : Z) :
  0 <= x < Z.of_nat 256 -> 0 <= y < Z.of_nat 256 ->
  right_char 0xA0 x (low_bit y) = Reference.right_byte x y.
Proof.
  intros Hx Hy. apply Z.eqb_eq. revert x y Hx Hy.
  refine (range2 (fun x y => _) _). vm_compute. reflexivity.
Qed.

(** ** The runs against the indexed formulas *)

Lemma at_index_middle (pre : list byte) (c : byte) (rest : list byte) :
  Reference.at_index (pre ++ c :: rest) (List.length pre) = U8.of_byte c.
Proof.
  unfold Reference.at_index.
  rewrite app_nth2 by lia. rewrite Nat.sub_diag. reflexivity.
Qed.

Lemma left_run_reference (rest : list byte) :
  forall (b pre : list byte),
    b = pre ++ rest ->
    left_run 0xA0 (masked 0xA0 (Reference.at_index b 0)) rest
    = map (fun i => U8.to_byte
                      (Reference.left_byte (Reference.at_index b i)
                         (Reference.at_index b ((i + 1) mod List.length b)%nat)))
          (seq (List.length pre) (List.length rest)).
Proof.
  induction rest as [|c rest IH]; intros b pre Hb; [reflexivity|].
  assert (Hlen : List.length b = (List.length pre + 1 + List.length rest)%nat).
  { subst b. rewrite length_app. simpl. lia. }
  cbn [left_run List.length seq map]. f_equal.
  - f_equal.
    assert (Hc : Reference.at_index b (List.length pre) = U8.of_byte c).
    { subst b. apply at_index_middle. }
    rewrite Hc.
    destruct rest as [|p r].
    + simpl in Hlen.
      replace (List.length pre + 1)%nat with (List.length b) by lia.
      rewrite Nat.Div0.mod_same.
      apply left_char_reference; [apply u8_range|].
      unfold Reference.at_index. apply u8_range.
    + rewrite Nat.mod_small by (simpl in Hlen; lia).
      assert (Hp : Reference.at_index b (List.length pre + 1) = U8.of_byte p).
      { subst b.
        replace (pre ++ c :: p :: r) with ((pre ++ [c]) ++ p :: r)
          by (rewrite <- app_assoc; reflexivity).
        replace (List.length pre + 1)%nat with (List.length (pre ++ [c]))
          by (rewrite length_app; reflexivity).
        apply at_index_middle. }
      rewrite Hp. apply left_char_reference; apply u8_range.
  - replace (S (List.length pre)) with (List.length (pre ++ [c]))
      by (rewrite length_app; simpl; lia).
    apply IH. subst b. rewrite <- app_assoc. reflexivity.
Qed.

Lemma left_rot_reference (b : list byte) :
  left_rot 0xA0 b = Reference.rotate_left b.
Proof.
  destruct b as [|c r] eqn:E; [reflexivity|]. rewrite <- E.
  unfold left_rot, Reference.rotate_left.
  replace (peek_value b) with (Reference.at_index b 0) by (subst b; reflexivity).
  apply (left_run_reference b b []). reflexivity.
Qed.

Lemma right_run_reference (rest : list byte) :
  forall (b pre : list byte),
    b = pre ++ rest ->
    right_run 0xA0
      (low_bit (Reference.at_index b
                  ((List.length pre + List.length b - 1) mod List.length b)%nat)) rest
    = map (fun i => U8.to_byte
                      (Reference.right_byte (Reference.at_index b i)
                         (Reference.at_index b ((i + List.length b - 1) mod List.length b)%nat)))
          (seq (List.length pre) (List.length rest)).
Proof.
  induction rest as [|c rest IH]; intros b pre Hb; [reflexivity|].
  assert (Hlen : List.length b = (List.length pre + 1 + List.length rest)%nat).
  { subst b. rewrite length_app. simpl. lia. }
  assert (Hc : Reference.at_index b (List.length pre) = U8.of_byte c).
  { subst b. apply at_index_middle. }
  cbn [right_run List.length seq map]. f_equal.
  - f_equal. rewrite Hc.
    apply right_char_reference; [apply u8_range|].
    unfold Reference.at_index. apply u8_range.
  - specialize (IH b (pre ++ [c])).
    replace (List.length (pre ++ [c])) with (S (List.length pre)) in IH
      by (rewrite length_app; simpl; lia).
    rewrite <- IH by (subst b; rewrite <- app_assoc; reflexivity).
    f_equal. f_equal. rewrite <- Hc. f_equal.
    replace (S (List.length pre) + List.length b - 1)%nat
      with (List.length pre + 1 * List.length b)%nat by lia.
    rewrite Nat.Div0.mod_add. rewrite Nat.mod_small by lia. reflexivity.
Qed.

Lemma right_rot_reference (b : list byte) :
  right_rot 0xA0 b = Reference.rotate_right b.
Proof.
  destruct b as [|c0 r0] eqn:E; [reflexivity|]. rewrite <- E.
  assert (Hne : b <> []) by (subst b; discriminate).
  unfold right_rot, Reference.rotate_right.
  destruct (skipn_last_cons b Hne) as [pre [c [Hpc Hskip]]].
  rewrite Hskip. simpl peek_value.
  etransitivity; [|exact (right_run_reference b b [] eq_refl)].
  f_equal. f_equal. simpl List.length.
  assert (Hlen : List.length b = (List.length pre + 1)%nat).
  { rewrite Hpc, length_app. reflexivity. }
  rewrite Nat.mod_small by lia.
  replace (0 + List.length b - 1)%nat with (List.length pre) by lia.
  rewrite Hpc. symmetry. apply at_index_middle.
Qed.

(** ** Left and right undo each other *)

Lemma right_after_left_char (x pb : Z) :
  0 <= x < Z.of_nat 256 -> 0 <= pb < Z.of_nat 256 ->
  right_char 0xA0 (U8.of_int (left_char x pb)) (msb x) = x.
Proof.
  intros Hx Hy. apply Z.eqb_eq. revert x pb Hx Hy.
  refine (range2 (fun x y => _) _). vm_compute. reflexivity.
Qed.

Lemma low_bit_left_char (x y : Z) :
  0 <= x < Z.of_nat 256 -> 0 <= y < Z.of_nat 256 ->
  low_bit (U8.of_int (left_char x (masked 0xA0 y))) = msb y.
Proof.
  intros Hx Hy. apply Z.eqb_eq. revert x y Hx Hy.
  refine (range2 (fun x y => _) _). vm_compute. reflexivity.
Qed.

Lemma left_after_right_char (x y sb : Z) :
  0 <= x < Z.of_nat 256 -> 0 <= y < Z.of_nat 256 -> sb = 0 \/ sb = 1 ->
  left_char (U8.of_int (right_char 0xA0 x sb))
            (masked 0xA0 (U8.of_int (right_char 0xA0 y (low_bit x)))) = x.
Proof.
  intros Hx Hy Hsb.
  assert (H : forall x y, 0 <= x < Z.of_nat 256 -> 0 <= y < Z.of_nat 256 ->
              ((left_char (U8.of_int (right_char 0xA0 x 0))
                  (masked 0xA0 (U8.of_int (right_char 0xA0 y (low_bit x)))) =? x)
               && (left_char (U8.of_int (right_char 0xA0 x 1))
                     (masked 0xA0 (U8.of_int (right_char 0xA0 y (low_bit x)))) =? x)) = true).
  { refine (range2 (fun x y => _) _). vm_compute. reflexivity. }
  specialize (H x y Hx Hy). apply andb_true_iff in H. destruct H as [H0 H1].
  apply Z.eqb_eq in H0, H1. destruct Hsb; subst sb; assumption.
Qed.

Lemma masked_range (mask p : Z) : 0 <= masked mask p < Z.of_nat 256.
Proof. unfold masked. apply of_int_range. Qed.

Lemma left_run_length (mask fb : Z) (l : list byte) :
  List.length (left_run mask fb l) = List.length l.
Proof. induction l as [|c r IH]; simpl; [reflexivity | rewrite IH; reflexivity]. Qed.

Lemma right_run_length (mask : Z) (l : list byte) :
  forall sb, List.length (right_run mask sb l) = List.length l.
Proof. induction l as [|c r IH]; intros sb; simpl; [reflexivity | rewrite IH; reflexivity]. Qed.

Lemma left_rot_length (mask : Z) (b : list byte) :
  List.length (left_rot mask b) = List.length b.
Proof. unfold left_rot. rewrite left_run_length. reflexivity. Qed.

Lemma right_rot_length (mask : Z) (b : list byte) :
  List.length (right_rot mask b) = List.length b.
Proof. unfold right_rot. rewrite right_run_length. reflexivity. Qed.

(** The last byte the left loop writes uses the saved first bit. *)
Lemma left_run_snoc (mask fb : Z) (pre : list byte) (c : byte) :
  left_run mask fb (pre ++ [c])
  = left_run mask (masked mask (U8.of_byte c)) pre
    ++ [U8.to_byte (left_char (U8.of_byte c) fb)].
Proof.
  induction pre as [|x pre IH]; [reflexivity|].
  cbn [app left_run]. rewrite IH. f_equal.
  destruct pre; reflexivity.
Qed.

Lemma right_run_left_run (rest : list byte) :
  forall (c : byte) (fb : Z),
    0 <= fb < Z.of_nat 256 ->
    right_run 0xA0 (msb (U8.of_byte c)) (left_run 0xA0 fb (c :: rest)) = c :: rest.
Proof.
  induction rest as [|p r IH]; intros c fb Hfb.
  - cbn [left_run right_run]. rewrite of_byte_to_byte.
    rewrite right_after_left_char by (apply u8_range || exact Hfb).
    rewrite to_byte_of_byte. reflexivity.
  - cbn [left_run right_run] in *. rewrite of_byte_to_byte.
    rewrite right_after_left_char by (apply u8_range || apply masked_range).
    rewrite to_byte_of_byte. f_equal.
    rewrite low_bit_left_char by apply u8_range.
    apply IH. exact Hfb.
Qed.

Lemma right_rot_left_rot (b : list byte) :
  right_rot 0xA0 (left_rot 0xA0 b) = b.
Proof.
  destruct b as [|c0 r0] eqn:E; [reflexivity|].
  assert (Hne : b <> []) by (subst b; discriminate).
  destruct (exists_last Hne) as [pre [c Hpc]].
  rewrite <- E. unfold right_rot. rewrite left_rot_length.
  assert (Hlast : forall fb, skipn (List.length b - 1) (left_run 0xA0 fb b)
                             = [U8.to_byte (left_char (U8.of_byte c) fb)]).
  { intros fb. rewrite Hpc. rewrite left_run_snoc.
    rewrite skipn_app, skipn_all2.
    - rewrite left_run_length.
      replace (List.length (pre ++ [c]) - 1 - List.length pre)%nat with 0%nat
        by (rewrite length_app; simpl; lia).
      reflexivity.
    - rewrite left_run_length, length_app. simpl. lia. }
  unfold left_rot at 1.
  rewrite Hlast. cbn [peek_value]. rewrite of_byte_to_byte.
  rewrite E at 1. cbn [peek_value].
  rewrite low_bit_left_char by apply u8_range.
  unfold left_rot. rewrite E. apply right_run_left_run. apply masked_range.
Qed.

Lemma left_run_cons2 (mask fb : Z) (x q : byte) (l : list byte) :
  left_run mask fb (x :: q :: l)
  = U8.to_byte (left_char (U8.of_byte x) (masked mask (U8.of_byte q)))
      :: left_run mask fb (q :: l).
Proof. reflexivity. Qed.

Lemma right_run_cons (mask sb : Z) (c : byte) (l : list byte) :
  right_run mask sb (c :: l)
  = U8.to_byte (right_char mask (U8.of_byte c) sb)
      :: right_run mask (low_bit (U8.of_byte c)) l.
Proof. reflexivity. Qed.

Lemma left_run_right_run (rest : list byte) :
  forall (c : byte) (sb fb y : Z),
    sb = 0 \/ sb = 1 ->
    0 <= y < Z.of_nat 256 ->
    fb = masked 0xA0 (U8.of_int (right_char 0xA0 y (low_bit (U8.of_byte (last (c :: rest) x00))))) ->
    left_run 0xA0 fb (right_run 0xA0 sb (c :: rest)) = c :: rest.
Proof.
  induction rest as [|p r IH]; intros c sb fb y Hsb Hy Hfb.
  - cbn [left_run right_run last] in *. rewrite of_byte_to_byte. subst fb.
    rewrite left_after_right_char by (apply u8_range || assumption).
    rewrite to_byte_of_byte. reflexivity.
  - rewrite (right_run_cons 0xA0 sb c (p :: r)).
    rewrite (right_run_cons 0xA0 _ p r).
    rewrite left_run_cons2. rewrite !of_byte_to_byte.
    rewrite left_after_right_char by (apply u8_range || assumption).
    rewrite to_byte_of_byte. f_equal.
    rewrite <- right_run_cons.
    apply (IH p (low_bit (U8.of_byte c)) fb y); [apply low_bit_cases | exact Hy |].
    exact Hfb.
Qed.

Lemma left_rot_right_rot (b : list byte) :
  left_rot 0xA0 (right_rot 0xA0 b) = b.
Proof.
  destruct b as [|c0 r0] eqn:E; [reflexivity|].
  assert (Hne : b <> []) by (subst b; discriminate).
  destruct (skipn_last_cons b Hne) as [pre [c [Hpc Hskip]]].
  rewrite <- E. unfold left_rot at 1. unfold right_rot. rewrite Hskip.
  cbn [peek_value]. rewrite E. cbn [right_run peek_value].
  rewrite of_byte_to_byte.
  change (U8.to_byte (right_char 0xA0 (U8.of_byte c0) (low_bit (U8.of_byte c)))
            :: right_run 0xA0 (low_bit (U8.of_byte c0)) r0)
    with (right_run 0xA0 (low_bit (U8.of_byte c)) (c0 :: r0)).
  apply (left_run_right_run r0 c0 _ _ (U8.of_byte c0));
    [apply low_bit_cases | apply u8_range |].
  rewrite <- E, Hpc, last_last. reflexivity.
Qed.

(** ** The rotation on the bit sequence *)

Lemma of_u8_left_char (x pb : Z) :
  0 <= x < Z.of_nat 256 -> 0 <= pb < Z.of_nat 256 ->
  Bits.of_u8 (U8.of_int (left_char x pb)) = tl (Bits.of_u8 x) ++ [Z.testbit pb 7].
Proof.
  intros Hx Hy. apply bits_eqb_eq. revert x pb Hx Hy.
  refine (range2 (fun x y => _) _). vm_compute. reflexivity.
Qed.

Lemma testbit_masked (p : Z) :
  0 <= p < Z.of_nat 256 -> Z.testbit (masked 0xA0 p) 7 = Z.testbit p 7.
Proof.
  intros Hp. apply Bool.eqb_prop. revert p Hp. by_range.
Qed.

Lemma to_u8_of_u8 (z : Z) :
  0 <= z < Z.of_nat 256 -> Bits.to_u8 (Bits.of_u8 z) = z.
Proof.
  intros Hz. apply Z.eqb_eq. revert z Hz. by_range.
Qed.

Lemma of_bytes_cons (c : byte) (l : list byte) :
  Bits.of_bytes (c :: l) = Bits.of_u8 (U8.of_byte c) ++ Bits.of_bytes l.
Proof. reflexivity. Qed.

Lemma of_u8_head (z : Z) : Bits.of_u8 z = Z.testbit z 7 :: tl (Bits.of_u8 z).
Proof. reflexivity. Qed.

Lemma tl_of_u8_app (z : Z) (l : list bool) :
  tl (Bits.of_u8 z ++ l) = tl (Bits.of_u8 z) ++ l.
Proof. reflexivity. Qed.

Lemma of_bytes_length (b : list byte) :
  List.length (Bits.of_bytes b) = (8 * List.length b)%nat.
Proof.
  induction b as [|c r IH]; [reflexivity|].
  rewrite of_bytes_cons, length_app, IH. cbn [Bits.of_u8 List.length]. lia.
Qed.

Lemma app_same_length (A : Type) (l1 : list A) :
  forall (l2 a b : list A),
    List.length l1 = List.length l2 -> l1 ++ a = l2 ++ b -> l1 = l2 /\ a = b.
Proof.
  induction l1 as [|x l1 IH]; intros [|y l2] a b Hlen H; simpl in Hlen; try discriminate.
  - split; [reflexivity | exact H].
  - cbn [app] in H. injection H as Hxy Ht.
    destruct (IH l2 a b) as [H1 H2]; [lia | exact Ht |].
    subst. split; reflexivity.
Qed.

Lemma of_bytes_injective (b1 : list byte) :
  forall b2, Bits.of_bytes b1 = Bits.of_bytes b2 -> b1 = b2.
Proof.
  induction b1 as [|x r1 IH]; intros [|y r2] H.
  - reflexivity.
  - apply (f_equal (@List.length bool)) in H. rewrite !of_bytes_length in H.
    simpl in H. lia.
  - apply (f_equal (@List.length bool)) in H. rewrite !of_bytes_length in H.
    simpl in H. lia.
  - rewrite !of_bytes_cons in H.
    assert (Hu : Bits.of_u8 (U8.of_byte x) = Bits.of_u8 (U8.of_byte y)
                 /\ Bits.of_bytes r1 = Bits.of_bytes r2).
    { apply app_same_length; [reflexivity | exact H]. }
    destruct Hu as [Hu Ht].
    apply (f_equal Bits.to_u8) in Hu.
    rewrite !to_u8_of_u8 in Hu by apply u8_range.
    apply (f_equal U8.to_byte) in Hu. rewrite !to_byte_of_byte in Hu.
    subst y. f_equal. apply IH. exact Ht.
Qed.

Lemma bits_left_run (rest : list byte) :
  forall (c : byte) (fb : Z),
    0 <= fb < Z.of_nat 256 ->
    Bits.of_bytes (left_run 0xA0 fb (c :: rest))
    = tl (Bits.of_bytes (c :: rest)) ++ [Z.testbit fb 7].
Proof.
  induction rest as [|p r IH]; intros c fb Hfb.
  - cbn [left_run]. rewrite !of_bytes_cons, of_byte_to_byte.
    rewrite of_u8_left_char by (apply u8_range || exact Hfb).
    cbn [Bits.of_bytes flat_map]. rewrite !app_nil_r. reflexivity.
  - rewrite left_run_cons2, of_bytes_cons, of_byte_to_byte.
    rewrite of_u8_left_char by (apply u8_range || apply masked_range).
    rewrite (IH p fb Hfb).
    rewrite testbit_masked by apply u8_range.
    rewrite (of_bytes_cons c), tl_of_u8_app.
    rewrite (of_bytes_cons p), tl_of_u8_app.
    rewrite (of_u8_head (U8.of_byte p)) at 2.
    rewrite <- !app_assoc. reflexivity.
Qed.

(** Left rotation moves the first bit of the file to its end. *)
Lemma bits_left_rot (b : list byte) :
  Bits.of_bytes (left_rot 0xA0 b) = Bits.rotl1 (Bits.of_bytes b).
Proof.
  destruct b as [|c r]; [reflexivity|].
  unfold left_rot. cbn [peek_value].
  rewrite bits_left_run by apply masked_range.
  rewrite testbit_masked by apply u8_range.
  rewrite of_bytes_cons, tl_of_u8_app.
  rewrite (of_u8_head (U8.of_byte c)) at 2. reflexivity.
Qed.

Lemma iter_rotl1 (l : list bool) (n : nat) :
  (n <= List.length l)%nat ->
  Nat.iter n Bits.rotl1 l = skipn n l ++ firstn n l.
Proof.
  induction n as [|n IH]; intros Hn.
  - simpl. rewrite app_nil_r. reflexivity.
  - rewrite Nat.iter_succ. rewrite IH by lia.
    assert (Hs : exists x, skipn n l = x :: skipn (S n) l /\ firstn (S n) l = firstn n l ++ [x]).
    { clear IH. revert l Hn. induction n as [|n IHn]; intros [|y l] Hn; simpl in Hn; try lia.
      - exists y. split; reflexivity.
      - destruct (IHn l) as [x [H1 H2]]; [lia|].
        exists x. split; [exact H1|].
        cbn [firstn] in *. rewrite H2. reflexivity. }
    destruct Hs as [x [H1 H2]]. rewrite H1, H2. cbn [Bits.rotl1 app].
    rewrite <- app_assoc. reflexivity.
Qed.

Lemma iter_rotl1_full (l : list bool) : Nat.iter (List.length l) Bits.rotl1 l = l.
Proof.
  rewrite iter_rotl1 by lia. rewrite skipn_all, firstn_all. reflexivity.
Qed.

Lemma iter_left_rot_bits (k : nat) (b : list byte) :
  Bits.of_bytes (Nat.iter k (left_rot 0xA0) b) = Nat.iter k Bits.rotl1 (Bits.of_bytes b).
Proof.
  induction k as [|k IH]; [reflexivity|].
  rewrite Nat.iter_succ. rewrite bits_left_rot, IH. reflexivity.
Qed.

Lemma left_rot_full_cycle (b : list byte) :
  Nat.iter (8 * List.length b) (left_rot 0xA0) b = b.
Proof.
  apply of_bytes_injective. rewrite iter_left_rot_bits.
  rewrite <- of_bytes_length. apply iter_rotl1_full.
Qed.

Lemma iter_cancel (A : Type) (f g : A -> A) :
  (forall x, g (f x) = x) -> forall k x, Nat.iter k g (Nat.iter k f x) = x.
Proof.
  intros Hgf k. induction k as [|k IH]; intros x; [reflexivity|].
  rewrite (Nat.iter_succ_r k A g), (Nat.iter_succ k A f), Hgf. apply IH.
Qed.

Lemma right_rot_full_cycle (b : list byte) :
  Nat.iter (8 * List.length b) (right_rot 0xA0) b = b.
Proof.
  rewrite <- (left_rot_full_cycle b) at 2.
  apply iter_cancel. apply right_rot_left_rot.
Qed.

(** ** rotate on a fresh file, and repeated *)

Lemma rotate_bytes_pure (b : list byte) (d : Instruction) :
  rotate_bytes b d
  = if Z.of_nat (List.length b) <=? INT_MAX
    then Finished (pure_rot d b)
    else UndefinedBehaviour.
Proof.
  unfold rotate_bytes, rotate. rewrite rotate_with_open. destruct d; reflexivity.
Qed.

Lemma pure_rot_length (d : Instruction) (b : list byte) :
  List.length (pure_rot d b) = List.length b.
Proof. destruct d; [apply left_rot_length | apply right_rot_length]. Qed.

Lemma iter_pure_rot_length (d : Instruction) (k : nat) (b : list byte) :
  List.length (Nat.iter k (pure_rot d) b) = List.length b.
Proof.
  induction k as [|k IH]; [reflexivity|].
  rewrite Nat.iter_succ, pure_rot_length. exact IH.
Qed.

Lemma rotate_times_succ (k : nat) (d : Instruction) (b : list byte) :
  rotate_times (S k) d b = outcome_bind (rotate_times k d b) (fun x => rotate_bytes x d).
Proof. unfold rotate_times. rewrite Nat.iter_succ. reflexivity. Qed.

Lemma rotate_times_small (k : nat) (d : Instruction) (b : list byte) :
  Z.of_nat (List.length b) <= INT_MAX ->
  rotate_times k d b = Finished (Nat.iter k (pure_rot d) b).
Proof.
  intros Hb. induction k as [|k IH]; [reflexivity|].
  rewrite rotate_times_succ, IH. cbn [outcome_bind].
  rewrite rotate_bytes_pure, iter_pure_rot_length.
  apply Z.leb_le in Hb. rewrite Hb. rewrite Nat.iter_succ. reflexivity.
Qed.

Lemma rotate_times_big (k : nat) (d : Instruction) (b : list byte) :
  INT_MAX < Z.of_nat (List.length b) ->
  rotate_times (S k) d b = UndefinedBehaviour.
Proof.
  intros Hb. induction k as [|k IH].
  - rewrite rotate_times_succ. unfold rotate_times. cbn [Nat.iter nat_rect outcome_bind].
    rewrite rotate_bytes_pure. apply Z.leb_gt in Hb. rewrite Hb. reflexivity.
  - rewrite rotate_times_succ, IH. reflexivity.
Qed.

Lemma two_gib_length : Z.of_nat (List.length two_gib) = INT_MAX + 1.
Proof.
  unfold two_gib. rewrite repeat_length. apply Z2Nat.id. unfold INT_MAX. lia.
Qed.

Lemma two_gib_too_long : (Z.of_nat (List.length two_gib) <=? INT_MAX) = false.
Proof. rewrite two_gib_length. reflexivity. Qed.

(** ** The mask [0xA0] against the mask [0x80] *)









(** ** C strings *)

Lemma ascii_code_diff (ca cb : ascii) :
  Ascii.eqb ca cb = false ->
  Z.of_nat (nat_of_ascii ca) - Z.of_nat (nat_of_ascii cb) <> 0.
Proof.
  intros E H. apply Ascii.eqb_neq in E. apply E.
  rewrite <- (ascii_nat_embedding ca), <- (ascii_nat_embedding cb).
  f_equal. lia.
Qed.

Lemma strncmp_zero (n : nat) :
  forall a b, CStr.strncmp a b n = 0 <-> CStr.chars n a = CStr.chars n b.
Proof.
  induction n as [|n IH]; intros a b; [split; reflexivity|].
  cbn [CStr.strncmp CStr.chars].
  destruct (Ascii.eqb (CStr.deref a) (CStr.deref b)) eqn:E; cbn [negb].
  - apply Ascii.eqb_eq in E. rewrite <- E.
    destruct (Ascii.eqb (CStr.deref a) CStr.NUL); [split; reflexivity|].
    rewrite IH. split; intros H; [rewrite H; reflexivity | injection H as H; exact H].
  - split; intros H; [exfalso; exact (ascii_code_diff _ _ E H)|].
    exfalso.
    destruct (Ascii.eqb (CStr.deref a) CStr.NUL) eqn:Ea;
      destruct (Ascii.eqb (CStr.deref b) CStr.NUL) eqn:Eb; try discriminate.
    + apply Ascii.eqb_eq in Ea, Eb. apply Ascii.eqb_neq in E. congruence.
    + injection H as H _. apply Ascii.eqb_neq in E. congruence.
Qed.

Lemma chars_length (n : nat) :
  forall s, String.length (CStr.chars n s) = CStr.strnlen s n.
Proof.
  induction n as [|n IH]; intros s; [reflexivity|].
  cbn [CStr.chars CStr.strnlen].
  destruct (Ascii.eqb (CStr.deref s) CStr.NUL); [reflexivity|].
  cbn [String.length]. rewrite IH. reflexivity.
Qed.

Lemma chars_S (n : nat) (s : string) :
  CStr.chars (S n) s
  = if Ascii.eqb (CStr.deref s) CStr.NUL then EmptyString
    else String (CStr.deref s) (CStr.chars n (CStr.next s)).
Proof. reflexivity. Qed.

Lemma strnlen_S (n : nat) (s : string) :
  CStr.strnlen s (S n)
  = if Ascii.eqb (CStr.deref s) CStr.NUL then O else S (CStr.strnlen (CStr.next s) n).
Proof. reflexivity. Qed.

Lemma chars_stable (n : nat) :
  forall s, (CStr.strnlen s (S n) <= n)%nat -> CStr.chars (S n) s = CStr.chars n s.
Proof.
  induction n as [|n IH]; intros s H.
  - rewrite strnlen_S in H. rewrite chars_S.
    destruct (Ascii.eqb (CStr.deref s) CStr.NUL); [reflexivity | lia].
  - rewrite strnlen_S in H. rewrite (chars_S (S n) s), (chars_S n s).
    destruct (Ascii.eqb (CStr.deref s) CStr.NUL); [reflexivity|].
    f_equal. apply IH. lia.
Qed.

Lemma chars_chars (n : nat) :
  forall m s, (n <= m)%nat -> CStr.chars n (CStr.chars m s) = CStr.chars n s.
Proof.
  induction n as [|n IH]; intros m s H; [reflexivity|].
  destruct m as [|m]; [lia|].
  cbn [CStr.chars].
  destruct (Ascii.eqb (CStr.deref s) CStr.NUL) eqn:E.
  - reflexivity.
  - cbn [CStr.deref CStr.next]. rewrite E. f_equal. apply IH. lia.
Qed.

(** What [parse_instruction] accepts. *)
Lemma parse_left_iff (s : string) :
  parse_instruction s = Some LEFT
  <-> CStr.chars 4 s = "left"%string /\ (CStr.strnlen s 6 <= 5)%nat.
Proof.
  unfold parse_instruction.
  change max_size with 5%nat. change left_size with 4%nat. change right_size with 5%nat.
  change (5 + 1)%nat with 6%nat.
  destruct (5 <? CStr.strnlen s 6)%nat eqn:Elong.
  - apply Nat.ltb_lt in Elong. split; [discriminate | intros [_ H]; lia].
  - apply Nat.ltb_ge in Elong.
    destruct (CStr.strncmp left s 4 =? 0) eqn:Ecmp.
    + apply Z.eqb_eq, strncmp_zero in Ecmp. change (CStr.chars 4 left) with "left"%string in Ecmp.
      assert (Hlen : CStr.strnlen s 4 = 4%nat).
      { rewrite <- chars_length, <- Ecmp. reflexivity. }
      rewrite Hlen. cbn [Nat.eqb andb]. split; [intros _; split; [symmetry; exact Ecmp | exact Elong] | reflexivity].
    + rewrite andb_false_r.
      assert (Hne : CStr.chars 4 s <> "left"%string).
      { intros H. apply Z.eqb_neq in Ecmp. apply Ecmp. apply strncmp_zero.
        rewrite H. reflexivity. }
      split; [|intros [H _]; contradiction].
      destruct ((CStr.strnlen s 5 =? 5)%nat && (CStr.strncmp right s 5 =? 0)); discriminate.
Qed.

Lemma parse_right_iff (s : string) :
  parse_instruction s = Some RIGHT <-> CStr.chars 6 s = "right"%string.
Proof.
  unfold parse_instruction.
  change max_size with 5%nat. change left_size with 4%nat. change right_size with 5%nat.
  change (5 + 1)%nat with 6%nat.
  destruct (5 <? CStr.strnlen s 6)%nat eqn:Elong.
  - apply Nat.ltb_lt in Elong. split; [discriminate|].
    intros H. rewrite <- chars_length, H in Elong. simpl in Elong. lia.
  - apply Nat.ltb_ge in Elong.
    pose proof (chars_stable 5 s Elong) as Hst.
    destruct (CStr.strncmp right s 5 =? 0) eqn:Ecmp.
    + apply Z.eqb_eq, strncmp_zero in Ecmp.
      change (CStr.chars 5 right) with "right"%string in Ecmp.
      assert (Hlen : CStr.strnlen s 5 = 5%nat).
      { rewrite <- chars_length, <- Ecmp. reflexivity. }
      assert (Hleft : (CStr.strncmp left s 4 =? 0) = false).
      { apply Z.eqb_neq. intros H. apply strncmp_zero in H.
        rewrite <- (chars_chars 4 5 s) in H by lia. rewrite <- Ecmp in H.
        discriminate H. }
      rewrite Hleft, andb_false_r, Hlen. cbn [Nat.eqb andb].
      split; [intros _; rewrite Hst; symmetry; exact Ecmp | reflexivity].
    + rewrite andb_false_r.
      assert (Hne : CStr.chars 6 s <> "right"%string).
      { intros H. apply Z.eqb_neq in Ecmp. apply Ecmp. apply strncmp_zero.
        rewrite <- Hst, H. reflexivity. }
      split; [|intros H; contradiction].
      destruct ((CStr.strnlen s 4 =? 4)%nat && (CStr.strncmp left s 4 =? 0)); discriminate.
Qed.

(** ** main *)

Lemma parse_token (d : Instruction) : parse_instruction (token d) = Some d.
Proof. destruct d; reflexivity. Qed.

Lemma main_rejects_at_guard (env : Env) (prog a b : string) (d : Instruction) :
  main env [prog; token d; a; b] = Finished (mk_Run EXIT_FAILURE [] None)
  <-> same_path a b = true.
Proof.
  unfold main. cbn [List.length Nat.eqb negb nth]. rewrite parse_token.
  destruct (same_path a b); [split; reflexivity|].
  split; [|discriminate]. intros H. exfalso.
  destruct (readable env a) as [bytes|]; [|discriminate].
  destruct (writable env b); cbn [negb] in H; [|discriminate].
  change (eof (open_in bytes)) with false in H. cbv iota in H.
  destruct (rotate (open_in bytes) open_out d) as [[s o]| |]; try discriminate.
  destruct (negb (List.length bytes =? List.length (written o))%nat); discriminate.
Qed.

(** ** The reference formulas by index *)

Lemma left_byte_range (x y : Z) :
  0 <= x < Z.of_nat 256 -> 0 <= y < Z.of_nat 256 ->
  U8.of_int (Reference.left_byte x y) = Reference.left_byte x y.
Proof.
  intros Hx Hy. apply Z.eqb_eq. revert x y Hx Hy.
  refine (range2 (fun x y => _) _). vm_compute. reflexivity.
Qed.

Lemma right_byte_range (x y : Z) :
  0 <= x < Z.of_nat 256 -> 0 <= y < Z.of_nat 256 ->
  U8.of_int (Reference.right_byte x y) = Reference.right_byte x y.
Proof.
  intros Hx Hy. apply Z.eqb_eq. revert x y Hx Hy.
  refine (range2 (fun x y => _) _). vm_compute. reflexivity.
Qed.

Lemma nth_map_seq (f : nat -> byte) (N i : nat) :
  (i < N)%nat -> nth i (map f (seq 0 N)) x00 = f i.
Proof.
  intros Hi.
  rewrite (nth_indep _ x00 (f 0%nat)) by (rewrite length_map, length_seq; exact Hi).
  rewrite map_nth, seq_nth by exact Hi. reflexivity.
Qed.

Lemma at_index_range (b : list byte) (i : nat) :
  0 <= Reference.at_index b i < Z.of_nat 256.
Proof. unfold Reference.at_index. apply u8_range. Qed.

Lemma reference_left_index (b : list byte) (i : nat) :
  (i < List.length b)%nat ->
  U8.of_byte (nth i (Reference.rotate b LEFT) x00)
  = Reference.left_byte (Reference.at_index b i)
      (Reference.at_index b ((i + 1) mod List.length b)%nat).
Proof.
  intros Hi. cbn [Reference.rotate]. unfold Reference.rotate_left.
  rewrite nth_map_seq by exact Hi.
  rewrite of_byte_to_byte. apply left_byte_range; apply at_index_range.
Qed.

Lemma reference_right_index (b : list byte) (i : nat) :
  (i < List.length b)%nat ->
  U8.of_byte (nth i (Reference.rotate b RIGHT) x00)
  = Reference.right_byte (Reference.at_index b i)
      (Reference.at_index b ((i + List.length b - 1) mod List.length b)%nat).
Proof.
  intros Hi. cbn [Reference.rotate]. unfold Reference.rotate_right.
  rewrite nth_map_seq by exact Hi.
  rewrite of_byte_to_byte. apply right_byte_range; apply at_index_range.
Qed.

Lemma reference_length (b : list byte) (d : Instruction) :
  List.length (Reference.rotate b d) = List.length b.
Proof.
  destruct d; cbn [Reference.rotate];
    unfold Reference.rotate_left, Reference.rotate_right;
    rewrite length_map, length_seq; reflexivity.
Qed.

Lemma pure_rot_reference (b : list byte) (d : Instruction) :
  pure_rot d b = Reference.rotate b d.
Proof. destruct d; [apply left_rot_reference | apply right_rot_reference]. Qed.

Lemma rotate_bytes_small (b : list byte) (d : Instruction) :
  Z.of_nat (List.length b) <= INT_MAX ->
  rotate_bytes b d = Finished (pure_rot d b).
Proof.
  intros H. rewrite rotate_bytes_pure. apply Z.leb_le in H. rewrite H. reflexivity.
Qed.

Lemma rotate_bytes_two_gib (d : Instruction) :
  rotate_bytes two_gib d = UndefinedBehaviour.
Proof. rewrite rotate_bytes_pure, two_gib_too_long. reflexivity. Qed.

Lemma two_gib_nonempty : (1 <= List.length two_gib)%nat.
Proof. pose proof two_gib_length as L. unfold INT_MAX in L. lia. Qed.

(** * Further properties of the rotation *)

(** ** Lists rotated by one place *)

Lemma last_to_front_snoc (A : Type) (t : list A) (h : A) :
  last_to_front (t ++ [h]) = h :: t.
Proof.
  destruct t as [|a t]; [reflexivity|].
  change ((a :: t) ++ [h]) with (a :: (t ++ [h])). unfold last_to_front.
  change (a :: (t ++ [h])) with ((a :: t) ++ [h]).
  rewrite last_last, removelast_last. reflexivity.
Qed.

Lemma last_to_front_first_to_end (A : Type) (l : list A) :
  last_to_front (first_to_end l) = l.
Proof.
  destruct l as [|h t]; [reflexivity|]. apply last_to_front_snoc.
Qed.

Lemma first_to_end_last_to_front (A : Type) (l : list A) :
  first_to_end (last_to_front l) = l.
Proof.
  destruct l as [|h t]; [reflexivity|].
  unfold last_to_front, first_to_end.
  symmetry. apply app_removelast_last. discriminate.
Qed.

Lemma snoc_fixed_all (A : Type) (t : list A) (h : A) :
  t ++ [h] = h :: t -> forall x, In x t -> x = h.
Proof.
  induction t as [|a t IH]; intros H x Hx; [destruct Hx|].
  cbn [app] in H. injection H as Ha Ht. subst a.
  destruct Hx as [Hx|Hx]; [symmetry; exact Hx|].
  apply IH; assumption.
Qed.

Lemma all_snoc_fixed (A : Type) (t : list A) (h : A) :
  (forall x, In x t -> x = h) -> t ++ [h] = h :: t.
Proof.
  induction t as [|a t IH]; intros H; [reflexivity|].
  assert (Ha : a = h) by (apply H; left; reflexivity). subst a.
  cbn [app]. rewrite IH; [reflexivity|].
  intros x Hx. apply H. right. exact Hx.
Qed.

Lemma first_to_end_fixed (l : list bool) : first_to_end l = l <-> uniform l.
Proof.
  destruct l as [|h t].
  - split; [intros _ x y Hx; destruct Hx | reflexivity].
  - cbn [first_to_end]. split.
    + intros H x y Hx Hy.
      assert (Hall : forall z, In z (h :: t) -> z = h).
      { intros z [Hz|Hz]; [symmetry; exact Hz | apply (snoc_fixed_all _ t h H z Hz)]. }
      rewrite (Hall x Hx), (Hall y Hy). reflexivity.
    + intros H. apply all_snoc_fixed. intros x Hx.
      apply H; [right; exact Hx | left; reflexivity].
Qed.

Lemma ones_first_to_end (l : list bool) : ones (first_to_end l) = ones l.
Proof.
  destruct l as [|h t]; [reflexivity|].
  unfold ones. cbn [first_to_end]. rewrite filter_app, length_app.
  destruct h; cbn [filter List.length]; lia.
Qed.

(** ** The two directions on the bit sequence *)

Lemma bits_right_rot (b : list byte) :
  Bits.of_bytes (right_rot 0xA0 b) = last_to_front (Bits.of_bytes b).
Proof.
  rewrite <- (left_rot_right_rot b) at 2.
  rewrite bits_left_rot.
  change (Bits.rotl1 (Bits.of_bytes (right_rot 0xA0 b)))
    with (first_to_end (Bits.of_bytes (right_rot 0xA0 b))).
  rewrite last_to_front_first_to_end. reflexivity.
Qed.

Lemma bits_pure_rot (d : Instruction) (b : list byte) :
  Bits.of_bytes (pure_rot d b)
  = match d with
    | LEFT => first_to_end (Bits.of_bytes b)
    | RIGHT => last_to_front (Bits.of_bytes b)
    end.
Proof.
  destruct d; cbn [pure_rot]; [apply bits_left_rot | apply bits_right_rot].
Qed.

Lemma of_bytes_app (a b : list byte) :
  Bits.of_bytes (a ++ b) = Bits.of_bytes a ++ Bits.of_bytes b.
Proof. unfold Bits.of_bytes. apply flat_map_app. Qed.

Lemma skipn_of_u8 (z : Z) (l : list bool) : skipn 8 (Bits.of_u8 z ++ l) = l.
Proof. reflexivity. Qed.

Lemma firstn_of_u8 (z : Z) (l : list bool) : firstn 8 (Bits.of_u8 z ++ l) = Bits.of_u8 z.
Proof. reflexivity. Qed.

Lemma left_rot_eight (b : list byte) :
  Nat.iter 8 (left_rot 0xA0) b = first_to_end b.
Proof.
  destruct b as [|c r]; [reflexivity|].
  apply of_bytes_injective. rewrite iter_left_rot_bits.
  rewrite iter_rotl1 by (rewrite of_bytes_length; cbn [List.length]; lia).
  rewrite of_bytes_cons, skipn_of_u8, firstn_of_u8.
  cbn [first_to_end]. rewrite of_bytes_app, of_bytes_cons.
  cbn [Bits.of_bytes flat_map]. rewrite app_nil_r. reflexivity.
Qed.

Lemma right_rot_eight (b : list byte) :
  Nat.iter 8 (right_rot 0xA0) b = last_to_front b.
Proof.
  rewrite <- (first_to_end_last_to_front _ b) at 1.
  rewrite <- left_rot_eight.
  apply iter_cancel. apply right_rot_left_rot.
Qed.

Lemma pure_rot_cancel (d : Instruction) (x : list byte) :
  pure_rot (match d with LEFT => RIGHT | RIGHT => LEFT end) (pure_rot d x) = x.
Proof.
  destruct d; cbn [pure_rot]; [apply right_rot_left_rot | apply left_rot_right_rot].
Qed.

Lemma pure_rot_fixed (d : Instruction) (b : list byte) :
  pure_rot d b = b <-> uniform (Bits.of_bytes b).
Proof.
  rewrite <- first_to_end_fixed.
  change (first_to_end (Bits.of_bytes b)) with (Bits.rotl1 (Bits.of_bytes b)).
  rewrite <- bits_left_rot.
  assert (HL : left_rot 0xA0 b = b <-> Bits.of_bytes (left_rot 0xA0 b) = Bits.of_bytes b).
  { split; [intros H; rewrite H; reflexivity | apply of_bytes_injective]. }
  rewrite <- HL. destruct d; cbn [pure_rot]; [reflexivity|].
  split; intros H.
  - rewrite <- H at 1. apply left_rot_right_rot.
  - rewrite <- H at 1. apply right_rot_left_rot.
Qed.

(** ** rotate with the streams it leaves *)

Lemma rotate_open_full (b : list byte) (output : ofstream) (d : Instruction) :
  b <> [] ->
  Z.of_nat (List.length b) <= INT_MAX ->
  rotate (open_in b) output d
  = Finished (clean b (Z.of_nat (List.length b)),
              mk_ofstream (written output ++ pure_rot d b)).
Proof.
  intros Hne Hmax.
  assert (Hpos : 0 < Z.of_nat (List.length b)).
  { destruct b; [congruence | simpl; lia]. }
  unfold rotate, rotate_with. change (open_in b) with (clean b 0).
  rewrite tellg_clean. unfold seekg_end, seekg.
  rewrite seek_to_clean by (unfold size; simpl; lia).
  replace (size (clean b 0) + 0) with (Z.of_nat (List.length b))
    by (unfold size; simpl; lia).
  rewrite tellg_clean, seek_to_clean by lia.
  destruct d; cbn [Instruction_eqb outcome_bind pure_rot].
  - unfold rotate_left. rewrite (peek_value_first b Hne).
    change (clean b 0) with (clean b (Z.of_nat (List.length (@nil byte)))).
    rewrite (left_loop_run 0xA0 b b []); [reflexivity | reflexivity | exact Hmax |].
    rewrite Nat2Z.id. lia.
  - unfold rotate_right, seekg_end, seekg.
    rewrite seek_to_clean by (unfold size; simpl; lia).
    replace (size (clean b 0) + -1) with (Z.of_nat (List.length b) - 1)
      by (unfold size; simpl; lia).
    rewrite (peek_value_last b Hne).
    rewrite seek_to_clean by lia.
    change (clean b 0) with (clean b (Z.of_nat (List.length (@nil byte)))).
    rewrite (right_loop_run 0xA0 b b []); [reflexivity | reflexivity | exact Hmax |].
    rewrite Nat2Z.id. lia.
Qed.

(** *** The loops on a stream in any state *)

Section AnyStream.

Variable mask : Z.

Lemma left_step_writes (i e fb : Z) (s : ifstream) (o : ofstream) :
  i + 1 <= INT_MAX ->
  exists (s' : ifstream) (c : byte),
    left_step mask i e fb s o = Finished (s', mk_ofstream (written o ++ [c])).
Proof.
  intros Hi. unfold left_step. destruct (get s) as [g s1].
  destruct (INT_MAX <? i + 1) eqn:E; [apply Z.ltb_lt in E; lia|].
  destruct (i + 1 <? e).
  - destruct (peek s1) as [p s2]. eexists. eexists. reflexivity.
  - eexists. eexists. reflexivity.
Qed.

Lemma right_step_writes (i sb : Z) (s : ifstream) (o : ofstream) :
  i + 1 <= INT_MAX ->
  exists (nb : Z) (s' : ifstream) (c : byte),
    right_step mask i sb s o = Finished (nb, s', mk_ofstream (written o ++ [c])).
Proof.
  intros Hi. unfold right_step. destruct (get s) as [g s1].
  destruct (INT_MAX <? i + 1) eqn:E; [apply Z.ltb_lt in E; lia|].
  eexists. eexists. eexists. reflexivity.
Qed.

Lemma left_loop_writes (n : nat) :
  forall (fuel : nat) (i e fb : Z) (s : ifstream) (o : ofstream),
    e <= INT_MAX -> Z.of_nat n = Z.max 0 (e - i) -> (n <= fuel)%nat ->
    exists (s' : ifstream) (w : list byte),
      left_loop mask fuel i e fb s o = Finished (s', mk_ofstream (written o ++ w))
      /\ List.length w = n.
Proof.
  induction n as [|n IH]; intros fuel i e fb s o He Hn Hfuel.
  - exists s, []. split; [|reflexivity].
    assert (Hlt : (i <? e) = false) by (apply Z.ltb_ge; lia).
    destruct fuel; cbn [left_loop]; rewrite Hlt, app_nil_r; destruct o; reflexivity.
  - destruct fuel as [|fuel]; [lia|].
    assert (Hlt : (i <? e) = true) by (apply Z.ltb_lt; lia).
    cbn [left_loop]. rewrite Hlt.
    destruct (left_step_writes i e fb s o) as [s1 [c Hstep]]; [lia|].
    rewrite Hstep.
    destruct (IH fuel (i + 1) e fb s1 (mk_ofstream (written o ++ [c])))
      as [s' [w [Hloop Hw]]]; [exact He | lia | lia |].
    exists s', (c :: w). split.
    + rewrite Hloop. cbn [written]. rewrite <- app_assoc. reflexivity.
    + cbn [List.length]. rewrite Hw. reflexivity.
Qed.

Lemma right_loop_writes (n : nat) :
  forall (fuel : nat) (i e sb : Z) (s : ifstream) (o : ofstream),
    e <= INT_MAX -> Z.of_nat n = Z.max 0 (e - i) -> (n <= fuel)%nat ->
    exists (s' : ifstream) (w : list byte),
      right_loop mask fuel i e sb s o = Finished (s', mk_ofstream (written o ++ w))
      /\ List.length w = n.
Proof.
  induction n as [|n IH]; intros fuel i e sb s o He Hn Hfuel.
  - exists s, []. split; [|reflexivity].
    assert (Hlt : (i <? e) = false) by (apply Z.ltb_ge; lia).
    destruct fuel; cbn [right_loop]; rewrite Hlt, app_nil_r; destruct o; reflexivity.
  - destruct fuel as [|fuel]; [lia|].
    assert (Hlt : (i <? e) = true) by (apply Z.ltb_lt; lia).
    cbn [right_loop]. rewrite Hlt.
    destruct (right_step_writes i sb s o) as [nb [s1 [c Hstep]]]; [lia|].
    rewrite Hstep.
    destruct (IH fuel (i + 1) e nb s1 (mk_ofstream (written o ++ [c])))
      as [s' [w [Hloop Hw]]]; [exact He | lia | lia |].
    exists s', (c :: w). split.
    + rewrite Hloop. cbn [written]. rewrite <- app_assoc. reflexivity.
    + cbn [List.length]. rewrite Hw. reflexivity.
Qed.

End AnyStream.

Lemma rotate_clean_writes (b : list byte) (p : Z) (output : ofstream) (d : Instruction) :
  0 <= p ->
  Z.of_nat (List.length b) <= INT_MAX ->
  exists (s' : ifstream) (w : list byte),
    rotate (clean b p) output d = Finished (s', mk_ofstream (written output ++ w))
    /\ List.length w = List.length b.
Proof.
  intros Hp Hmax. unfold rotate, rotate_with.
  rewrite tellg_clean. unfold seekg_end, seekg.
  rewrite seek_to_clean by (unfold size; simpl; lia).
  replace (size (clean b p) + 0) with (Z.of_nat (List.length b))
    by (unfold size; simpl; lia).
  rewrite tellg_clean, seek_to_clean by lia.
  destruct d; cbn [Instruction_eqb outcome_bind].
  - unfold rotate_left. destruct (peek (clean b p)) as [pv s1].
    destruct (left_loop_writes 0xA0 (List.length b) (Z.to_nat (Z.of_nat (List.length b)))
                0 (Z.of_nat (List.length b))
                (U8.of_int (Z.land (U8.of_int pv) 0xA0)) s1 output)
      as [s' [w [H Hw]]]; [exact Hmax | lia | lia |].
    exists s', w. rewrite H. split; [reflexivity | exact Hw].
  - unfold rotate_right, seekg_end, seekg.
    destruct (peek (seek_to (size (clean b p) + -1) (clean b p))) as [pv s1].
    destruct (right_loop_writes 0xA0 (List.length b) (Z.to_nat (Z.of_nat (List.length b)))
                0 (Z.of_nat (List.length b))
                (U8.of_int (Z.land (U8.of_int pv) 0x01)) (seek_to p s1) output)
      as [s' [w [H Hw]]]; [exact Hmax | lia | lia |].
    exists s', w. rewrite H. split; [reflexivity | exact Hw].
Qed.

(** ** main, case by case *)

Lemma main_four (env : Env) (prog tok a b : string) :
  main env [prog; tok; a; b]
  = match parse_instruction tok with
    | None => Finished (mk_Run EXIT_FAILURE [] None)
    | Some d =>
        if same_path a b then Finished (mk_Run EXIT_FAILURE [] None)
        else
          match readable env a with
          | None => Finished (mk_Run EXIT_FAILURE [OpenInput a] None)
          | Some bytes =>
              if writable env b
              then
                if Z.of_nat (List.length bytes) <=? INT_MAX
                then Finished (mk_Run EXIT_SUCCESS
                                      [OpenInput a; OpenOutput b; CallRotate d]
                                      (Some (Reference.rotate bytes d)))
                else UndefinedBehaviour
              else Finished (mk_Run EXIT_FAILURE [OpenInput a; OpenOutput b] None)
          end
    end.
Proof.
  unfold main. cbn [List.length Nat.eqb negb nth].
  destruct (parse_instruction tok) as [d|]; [|reflexivity].
  destruct (same_path a b); [reflexivity|].
  destruct (readable env a) as [bytes|]; [|reflexivity].
  destruct (writable env b); cbn [negb]; [|reflexivity].
  change (eof (open_in bytes)) with false. cbv iota.
  pose proof (rotate_bytes_pure bytes d) as P. unfold rotate_bytes in P.
  destruct (rotate (open_in bytes) open_out d) as [[s o]| |];
    cbn [outcome_map] in P;
    destruct (Z.of_nat (List.length bytes) <=? INT_MAX); try discriminate P;
    try reflexivity.
  injection P as P. rewrite P, pure_rot_length, Nat.eqb_refl. cbn [negb].
  rewrite pure_rot_reference. reflexivity.
Qed.

Lemma main_not_four (env : Env) (argv : list string) :
  List.length argv <> 4%nat ->
  main env argv = Finished (mk_Run EXIT_FAILURE [] None).
Proof.
  intros H. unfold main.
  destruct (List.length argv =? 4)%nat eqn:E; [apply Nat.eqb_eq in E; contradiction|].
  reflexivity.
Qed.

Lemma four_arguments (argv : list string) :
  List.length argv = 4%nat ->
  exists prog tok a b, argv = [prog; tok; a; b].
Proof.
  destruct argv as [|prog [|tok [|a [|b [|x rest]]]]]; intros H; try discriminate H.
  exists prog, tok, a, b. reflexivity.
Qed.

(** ** parse_instruction and main with their messages *)

Lemma parse_log_result (s : string) :
  parse_instruction_log s
  = (parse_instruction s,
     match parse_instruction s with
     | Some _ => EmptyString
     | None => snd (parse_instruction_log s)
     end).
Proof.
  unfold parse_instruction_log, parse_instruction.
  destruct (max_size <? CStr.strnlen s (max_size + 1))%nat; [reflexivity|].
  destruct ((CStr.strnlen s left_size =? left_size)%nat
            && (CStr.strncmp left s left_size =? 0)); [reflexivity|].
  destruct ((CStr.strnlen s right_size =? right_size)%nat
            && (CStr.strncmp right s right_size =? 0)); reflexivity.
Qed.

Lemma append_nonempty (a b : string) : b <> EmptyString -> (a ++ b)%string <> EmptyString.
Proof.
  intros Hb H. destruct a as [|c a]; [exact (Hb H) | discriminate H].
Qed.

Lemma main_log_result (env : Env) (argv : list string) (r : Run) (err : string) :
  main_log env argv = Finished (r, err) ->
  main env argv = Finished r /\ (exit_code r = EXIT_SUCCESS <-> err = EmptyString).
Proof.
  unfold main_log, main.
  destruct (negb (List.length argv =? 4)%nat).
  { intros H. injection H as <- <-. split; [reflexivity|].
    split; intros X; discriminate X. }
  rewrite parse_log_result.
  destruct (parse_instruction (nth 1 argv EmptyString)) as [d|].
  2: { intros H. injection H as <- <-. split; [reflexivity|].
       split; intros X; [discriminate X|]. exfalso. revert X.
       apply append_nonempty. discriminate. }
  cbn [append].
  destruct (same_path (nth 2 argv EmptyString) (nth 3 argv EmptyString)).
  { intros H. injection H as <- <-. split; [reflexivity|].
    split; intros X; discriminate X. }
  destruct (readable env (nth 2 argv EmptyString)) as [bytes|].
  2: { intros H. injection H as <- <-. split; [reflexivity|].
       split; intros X; discriminate X. }
  destruct (negb (writable env (nth 3 argv EmptyString))).
  { intros H. injection H as <- <-. split; [reflexivity|].
    split; intros X; discriminate X. }
  change (eof (open_in bytes)) with false. cbv iota.
  destruct (rotate (open_in bytes) open_out d) as [[s o]| |]; try discriminate.
  destruct (negb (List.length bytes =? List.length (written o))%nat).
  - intros H. injection H as <- <-. split; [reflexivity|].
    split; intros X; discriminate X.
  - intros H. injection H as <- <-. split; [reflexivity|].
    split; intros X; reflexivity.
Qed.

(** * The claims *)

(** C1.  The claim promises the per-byte left formula for every byte
    sequence of length [N >= 1].  The file of [INT_MAX + 1] bytes is such
    a sequence, and on it the left branch of [rotate] yields no output at
    all: the [int] counter of the loop at line 106 overflows at the
    [i+1] of line 114. *)
Lemma left_rotation_undefined_past_int_max :
  (1 <= List.length two_gib)%nat
  /\ ~ exists out : list byte, rotate_bytes two_gib LEFT = Finished out.
Proof.
  split; [exact two_gib_nonempty|].
  intros [out H]. rewrite rotate_bytes_two_gib in H. discriminate H.
Qed.

(** C2.  The claim promises the per-byte right formula for every byte
    sequence of length [N >= 1].  On the file of [INT_MAX + 1] bytes the
    right branch of [rotate] yields no output at all: the [int] counter
    of the loop at line 135 overflows at the [++i] that follows the
    iteration with [i = INT_MAX]. *)
Lemma right_rotation_undefined_past_int_max :
  (1 <= List.length two_gib)%nat
  /\ ~ exists out : list byte, rotate_bytes two_gib RIGHT = Finished out.
Proof.
  split; [exact two_gib_nonempty|].
  intros [out H]. rewrite rotate_bytes_two_gib in H. discriminate H.
Qed.

(** C3.  The claim promises an output of the input's length for every
    byte sequence.  On the file of [INT_MAX + 1] bytes [rotate] is
    undefined (the [int] loop counter overflows), so no output of the
    input's length comes out. *)
Lemma length_not_preserved_past_int_max :
  outcome_map (@List.length byte) (rotate_bytes two_gib LEFT)
  <> Finished (List.length two_gib).
Proof. rewrite rotate_bytes_two_gib. discriminate. Qed.

(** C4.  The claim promises that left then right returns every
    non-empty byte sequence.  On the non-empty file of [INT_MAX + 1]
    bytes the first rotation is already undefined (the [int] loop counter
    overflows), so the file does not come back. *)
Lemma inverse_fails_past_int_max :
  two_gib <> []
  /\ outcome_bind (rotate_bytes two_gib LEFT) (fun c => rotate_bytes c RIGHT)
     <> Finished two_gib.
Proof.
  split.
  - intros E. pose proof two_gib_nonempty as L. rewrite E in L. simpl in L. lia.
  - rewrite rotate_bytes_two_gib. discriminate.
Qed.

(** C5.  Right rotation of [[0b00000001, 0b10000000]] gives
    [[0b00000000, 0b11000000]]: the last bit of the file, a 0, becomes the
    first bit of the output. *)
Theorem right_rotation_two_bytes :
  rotate_bytes [x01; x80] RIGHT = Finished [x00; xc0].
Proof. reflexivity. Qed.

(** C5 as stated fails: the output is not [[0b10000000, 0b11000000]]. *)
Lemma right_rotation_two_bytes_not_spec :
  rotate_bytes [x01; x80] RIGHT <> Finished [x80; xc0].
Proof. vm_compute. discriminate. Qed.

(** C6.  [parse_instruction] returns [RIGHT] exactly for the token
    [right], but [LEFT] for every token of at most five characters that
    starts with [left]: the token [leftx] is neither [left] nor [right],
    yet it is parsed as [LEFT] and the program rotates left and exits
    with code 0. *)
Theorem parse_instruction_accepts_leftx :
  (forall s : string,
      parse_instruction s = Some RIGHT <-> CStr.chars 6 s = "right"%string)
  /\ (forall s : string,
         parse_instruction s = Some LEFT
         <-> CStr.chars 4 s = "left"%string /\ (CStr.strnlen s 6 <= 5)%nat)
  /\ parse_instruction "leftx" = Some LEFT
  /\ main (one_file "in" [x80; x01]) ["rotate"; "leftx"; "in"; "out"]%string
     = Finished (mk_Run EXIT_SUCCESS
                        [OpenInput "in"; OpenOutput "out"; CallRotate LEFT]
                        (Some [x00; x03])).
Proof.
  split; [exact parse_right_iff|]. split; [exact parse_left_iff|].
  split; reflexivity.
Qed.

(** C7.  On an empty input the program writes an empty output and exits
    with code 0, but it does call [rotate]: [eof()] is false on a stream
    that was just opened, so the guard at line 195 does not fire.
    [rotate] itself leaves the output empty. *)
Theorem empty_input_reaches_rotate (d : Instruction) :
  eof (open_in []) = false
  /\ main (one_file "in" []) ["rotate"; token d; "in"; "out"]%string
     = Finished (mk_Run EXIT_SUCCESS
                        [OpenInput "in"; OpenOutput "out"; CallRotate d]
                        (Some []))
  /\ rotate_bytes [] d = Finished [].
Proof. destruct d; repeat split; reflexivity. Qed.


(** C9.  The claim promises the full bit-cycle for every byte sequence.
    On the file of [INT_MAX + 1] bytes the first of the [8 * len]
    applications of [rotate] is already undefined (the [int] loop counter
    overflows), so the file does not come back. *)
Lemma full_cycle_fails_past_int_max :
  rotate_times (8 * List.length two_gib) LEFT two_gib <> Finished two_gib.
Proof.
  assert (H : exists k, (8 * List.length two_gib)%nat = S k).
  { pose proof two_gib_nonempty as L.
    destruct (8 * List.length two_gib)%nat as [|k] eqn:E; [lia | exists k; reflexivity]. }
  destruct H as [k ->]. rewrite rotate_times_big; [discriminate|].
  rewrite two_gib_length. lia.
Qed.

(** C10.  The guard at line 168 compares the two path arguments
    character by character, up to [PATH_MAX] characters: the program
    stops there, before opening any file, exactly when the first
    [PATH_MAX] characters of the two strings agree.  Two spellings of one
    file, such as [./in] and [in], pass the guard. *)
Theorem same_path_guard_is_string_equality :
  (forall a b : string,
      same_path a b = true <-> CStr.chars PATH_MAX a = CStr.chars PATH_MAX b)
  /\ (forall (env : Env) (prog a b : string) (d : Instruction),
         main env [prog; token d; a; b] = Finished (mk_Run EXIT_FAILURE [] None)
         <-> CStr.chars PATH_MAX a = CStr.chars PATH_MAX b)
  /\ same_path "./in" "in" = false.
Proof.
  assert (H : forall a b : string,
             same_path a b = true <-> CStr.chars PATH_MAX a = CStr.chars PATH_MAX b).
  { intros a b. unfold same_path. rewrite Z.eqb_eq. apply strncmp_zero. }
  split; [exact H|]. split.
  - intros env prog a b d. rewrite main_rejects_at_guard. apply H.
  - reflexivity.
Qed.

(** * Further theorems *)

(** X1.  On a file of at most [INT_MAX] bytes, left rotation writes the
    bit sequence [b1 ... bN b0] of lines 12-15: the bits of the input,
    most significant bit of the first byte first, with the first bit
    moved to the end. *)
Theorem left_rotation_on_bits (b : list byte) :
  Z.of_nat (List.length b) <= INT_MAX ->
  outcome_map Bits.of_bytes (rotate_bytes b LEFT)
  = Finished (first_to_end (Bits.of_bytes b)).
Proof.
  intros Hb. rewrite rotate_bytes_small by exact Hb.
  cbn [outcome_map]. rewrite bits_pure_rot. reflexivity.
Qed.

Lemma left_rotation_on_bits_witness :
  Z.of_nat (List.length [x80; x01]) <= INT_MAX
  /\ outcome_map Bits.of_bytes (rotate_bytes [x80; x01] LEFT)
     = Finished (first_to_end (Bits.of_bytes [x80; x01])).
Proof.
  split; [vm_compute; discriminate|].
  apply (left_rotation_on_bits [x80; x01]). vm_compute. discriminate.
Defined.

(** X2.  On a file of at most [INT_MAX] bytes, right rotation writes the
    bit sequence [bN b0 b1 ... bM] of line 16: the bits of the input with
    the last bit moved to the front. *)
Theorem right_rotation_on_bits (b : list byte) :
  Z.of_nat (List.length b) <= INT_MAX ->
  outcome_map Bits.of_bytes (rotate_bytes b RIGHT)
  = Finished (last_to_front (Bits.of_bytes b)).
Proof.
  intros Hb. rewrite rotate_bytes_small by exact Hb.
  cbn [outcome_map]. rewrite bits_pure_rot. reflexivity.
Qed.

Lemma right_rotation_on_bits_witness :
  Z.of_nat (List.length [x01; x80]) <= INT_MAX
  /\ outcome_map Bits.of_bytes (rotate_bytes [x01; x80] RIGHT)
     = Finished (last_to_front (Bits.of_bytes [x01; x80])).
Proof.
  split; [vm_compute; discriminate|].
  apply (right_rotation_on_bits [x01; x80]). vm_compute. discriminate.
Defined.

(** X3.  [k] left rotations in succession, for [k] up to the number of
    bits of the file, move the first [k] bits of the file to its end. *)
Theorem repeated_left_rotation_on_bits (k : nat) (b : list byte) :
  Z.of_nat (List.length b) <= INT_MAX ->
  (k <= 8 * List.length b)%nat ->
  outcome_map Bits.of_bytes (rotate_times k LEFT b)
  = Finished (skipn k (Bits.of_bytes b) ++ firstn k (Bits.of_bytes b)).
Proof.
  intros Hb Hk. rewrite rotate_times_small by exact Hb.
  cbn [outcome_map pure_rot]. rewrite iter_left_rot_bits.
  rewrite iter_rotl1 by (rewrite of_bytes_length; exact Hk). reflexivity.
Qed.

Lemma repeated_left_rotation_on_bits_witness :
  Z.of_nat (List.length [xa5; x3c]) <= INT_MAX
  /\ (3 <= 8 * List.length [xa5; x3c])%nat
  /\ outcome_map Bits.of_bytes (rotate_times 3 LEFT [xa5; x3c])
     = Finished (skipn 3 (Bits.of_bytes [xa5; x3c]) ++ firstn 3 (Bits.of_bytes [xa5; x3c])).
Proof.
  split; [vm_compute; discriminate|]. split; [simpl; lia|].
  apply (repeated_left_rotation_on_bits 3 [xa5; x3c]); [vm_compute; discriminate | simpl; lia].
Defined.

(** X4.  Eight rotations move a whole byte: eight left rotations put the
    first byte of the file at its end, eight right rotations put the last
    byte at its front, and the other bytes keep their values. *)
Theorem eight_rotations_move_a_byte (b : list byte) :
  Z.of_nat (List.length b) <= INT_MAX ->
  rotate_times 8 LEFT b = Finished (first_to_end b)
  /\ rotate_times 8 RIGHT b = Finished (last_to_front b).
Proof.
  intros Hb. rewrite !rotate_times_small by exact Hb. cbn [pure_rot].
  rewrite left_rot_eight, right_rot_eight. split; reflexivity.
Qed.

Lemma eight_rotations_move_a_byte_witness :
  Z.of_nat (List.length [x12; x34; x56]) <= INT_MAX
  /\ rotate_times 8 LEFT [x12; x34; x56] = Finished (first_to_end [x12; x34; x56])
  /\ rotate_times 8 RIGHT [x12; x34; x56] = Finished (last_to_front [x12; x34; x56]).
Proof.
  split; [vm_compute; discriminate|].
  apply (eight_rotations_move_a_byte [x12; x34; x56]). vm_compute. discriminate.
Defined.

(** X5.  A rotation in either direction keeps the number of set bits of
    the file. *)
Theorem rotation_keeps_set_bits (b : list byte) (d : Instruction) :
  Z.of_nat (List.length b) <= INT_MAX ->
  outcome_map (fun out => ones (Bits.of_bytes out)) (rotate_bytes b d)
  = Finished (ones (Bits.of_bytes b)).
Proof.
  intros Hb. rewrite rotate_bytes_small by exact Hb. cbn [outcome_map]. f_equal.
  destruct d.
  - rewrite bits_pure_rot. apply ones_first_to_end.
  - rewrite <- (left_rot_right_rot b) at 2.
    rewrite bits_left_rot. symmetry. apply ones_first_to_end.
Qed.

Lemma rotation_keeps_set_bits_witness :
  Z.of_nat (List.length [x81; x0f]) <= INT_MAX
  /\ outcome_map (fun out => ones (Bits.of_bytes out)) (rotate_bytes [x81; x0f] RIGHT)
     = Finished (ones (Bits.of_bytes [x81; x0f])).
Proof.
  split; [vm_compute; discriminate|].
  apply (rotation_keeps_set_bits [x81; x0f] RIGHT). vm_compute. discriminate.
Defined.

(** X6.  A rotation in either direction returns the file unchanged
    exactly when all bits of the file are equal (every byte 0x00, or
    every byte 0xFF, or the file empty). *)
Theorem rotation_fixes_uniform_files_only (b : list byte) (d : Instruction) :
  Z.of_nat (List.length b) <= INT_MAX ->
  (rotate_bytes b d = Finished b <-> uniform (Bits.of_bytes b)).
Proof.
  intros Hb. rewrite rotate_bytes_small by exact Hb.
  rewrite <- (pure_rot_fixed d b). split; intros H.
  - injection H as H. exact H.
  - rewrite H. reflexivity.
Qed.

Lemma rotation_fixes_uniform_files_only_witness :
  Z.of_nat (List.length [xff; xff]) <= INT_MAX
  /\ (rotate_bytes [xff; xff] LEFT = Finished [xff; xff]
      <-> uniform (Bits.of_bytes [xff; xff])).
Proof.
  split; [vm_compute; discriminate|].
  apply (rotation_fixes_uniform_files_only [xff; xff] LEFT). vm_compute. discriminate.
Defined.

(** X7.  [k] rotations in one direction followed by [k] rotations in the
    other return the file unchanged, for every [k]. *)
Theorem repeated_rotations_undone (k : nat) (b : list byte) (d : Instruction) :
  Z.of_nat (List.length b) <= INT_MAX ->
  outcome_bind (rotate_times k d b)
               (rotate_times k (match d with LEFT => RIGHT | RIGHT => LEFT end))
  = Finished b.
Proof.
  intros Hb. rewrite rotate_times_small by exact Hb. cbn [outcome_bind].
  rewrite rotate_times_small by (rewrite iter_pure_rot_length; exact Hb).
  f_equal. apply iter_cancel. apply pure_rot_cancel.
Qed.

Lemma repeated_rotations_undone_witness :
  Z.of_nat (List.length [x12; x34]) <= INT_MAX
  /\ outcome_bind (rotate_times 5 RIGHT [x12; x34])
                  (rotate_times 5 (match RIGHT with LEFT => RIGHT | RIGHT => LEFT end))
     = Finished [x12; x34].
Proof.
  split; [vm_compute; discriminate|].
  apply (repeated_rotations_undone 5 [x12; x34] RIGHT). vm_compute. discriminate.
Defined.

(** X8.  On a freshly opened, non-empty file of at most [INT_MAX] bytes
    [rotate] appends the rotated bytes to whatever the output stream
    already holds, and leaves the input stream at the end of the file
    with no state flag set. *)
Theorem rotate_appends_and_reads_to_the_end
        (b : list byte) (output : ofstream) (d : Instruction) :
  b <> [] ->
  Z.of_nat (List.length b) <= INT_MAX ->
  exists (input' : ifstream) (output' : ofstream),
    rotate (open_in b) output d = Finished (input', output')
    /\ written output' = written output ++ Reference.rotate b d
    /\ gpos input' = Z.of_nat (List.length b)
    /\ good input' = true.
Proof.
  intros Hne Hb. eexists. eexists.
  rewrite (rotate_open_full b output d Hne Hb).
  split; [reflexivity|]. cbn [written]. rewrite pure_rot_reference.
  repeat split.
Qed.

Lemma rotate_appends_and_reads_to_the_end_witness :
  [x80; x01] <> []
  /\ Z.of_nat (List.length [x80; x01]) <= INT_MAX
  /\ exists (input' : ifstream) (output' : ofstream),
      rotate (open_in [x80; x01]) (mk_ofstream [x7f]) LEFT = Finished (input', output')
      /\ written output' = written (mk_ofstream [x7f]) ++ Reference.rotate [x80; x01] LEFT
      /\ gpos input' = Z.of_nat (List.length [x80; x01])
      /\ good input' = true.
Proof.
  split; [discriminate|]. split; [vm_compute; discriminate|].
  apply (rotate_appends_and_reads_to_the_end [x80; x01] (mk_ofstream [x7f]) LEFT);
    [discriminate | vm_compute; discriminate].
Defined.

(** X9.  On a freshly opened empty file [rotate] writes nothing and
    leaves the input stream in a failed state: the left branch sets
    [eofbit] by peeking at the end of the file, the right branch sets
    [failbit] by seeking to position -1. *)
Theorem rotate_on_empty_file (output : ofstream) :
  (exists input' : ifstream,
      rotate (open_in []) output LEFT = Finished (input', output)
      /\ eof input' = true /\ fail input' = false)
  /\ (exists input' : ifstream,
         rotate (open_in []) output RIGHT = Finished (input', output)
         /\ eof input' = false /\ fail input' = true).
Proof.
  destruct output as [w]. split; eexists; repeat split.
Qed.

(** X10.  Called on a stream that stands at any position [p >= 0] of a
    file of at most [INT_MAX] bytes, [rotate] still writes as many bytes
    as the whole file holds: the loops run [end_position] times from the
    restored start position, not [end_position - p] times. *)
Theorem rotate_writes_file_length_from_any_position
        (b : list byte) (p : Z) (output : ofstream) (d : Instruction) :
  0 <= p ->
  Z.of_nat (List.length b) <= INT_MAX ->
  exists (input' : ifstream) (w : list byte),
    rotate (mk_ifstream b p false false) output d
    = Finished (input', mk_ofstream (written output ++ w))
    /\ List.length w = List.length b.
Proof. intros Hp Hb. exact (rotate_clean_writes b p output d Hp Hb). Qed.

Lemma rotate_writes_file_length_from_any_position_witness :
  0 <= 1
  /\ Z.of_nat (List.length [x80; x01]) <= INT_MAX
  /\ exists (input' : ifstream) (w : list byte),
      rotate (mk_ifstream [x80; x01] 1 false false) open_out LEFT
      = Finished (input', mk_ofstream (written open_out ++ w))
      /\ List.length w = List.length [x80; x01].
Proof.
  split; [lia|]. split; [vm_compute; discriminate|].
  apply (rotate_writes_file_length_from_any_position [x80; x01] 1 open_out LEFT);
    [lia | vm_compute; discriminate].
Defined.

(** X14.  When the input file cannot be opened the program exits with a
    failure code and has not opened, so not created or truncated, the
    output file. *)
Theorem main_unreadable_input_spares_output (env : Env) (argv : list string) :
  readable env (nth 2 argv EmptyString) = None ->
  exists r : Run,
    main env argv = Finished r
    /\ exit_code r = EXIT_FAILURE
    /\ output_file r = None
    /\ forall p : string, ~ In (OpenOutput p) (events r).
Proof.
  intros Hr.
  destruct (Nat.eq_dec (List.length argv) 4) as [Hlen|Hlen].
  2: { rewrite (main_not_four env argv Hlen). eexists. repeat split. intros p []. }
  destruct (four_arguments argv Hlen) as [prog [tok [a [b ->]]]].
  cbn [nth] in Hr. rewrite main_four, Hr.
  destruct (parse_instruction tok) as [d|].
  - destruct (same_path a b); eexists; repeat split.
    + intros p [].
    + intros p [X|[]]. discriminate X.
  - eexists. repeat split. intros p [].
Qed.

Lemma main_unreadable_input_spares_output_witness :
  readable (one_file "in" [x80]) (nth 2 ["rotate"; "left"; "missing"; "out"]%string EmptyString)
  = None
  /\ exists r : Run,
      main (one_file "in" [x80]) ["rotate"; "left"; "missing"; "out"]%string = Finished r
      /\ exit_code r = EXIT_FAILURE
      /\ output_file r = None
      /\ forall p : string, ~ In (OpenOutput p) (events r).
Proof.
  split; [reflexivity|].
  apply (main_unreadable_input_spares_output (one_file "in" [x80])
           ["rotate"; "left"; "missing"; "out"]%string).
  reflexivity.
Defined.

(** X15.  The program writes to [std::cerr] exactly when it exits with a
    failure code: a run that ends with code 0 prints nothing, every run
    that ends with another code prints a message.  The run itself is the
    one [main] gives. *)
Theorem main_reports_every_failure
        (env : Env) (argv : list string) (r : Run) (err : string) :
  main_log env argv = Finished (r, err) ->
  main env argv = Finished r /\ (exit_code r = EXIT_SUCCESS <-> err = EmptyString).
Proof. apply main_log_result. Qed.

Lemma main_reports_every_failure_witness :
  main_log (one_file "in" [x80]) ["rotate"; "left"; "in"]%string
  = Finished (mk_Run EXIT_FAILURE [] None, print_help)
  /\ main (one_file "in" [x80]) ["rotate"; "left"; "in"]%string
     = Finished (mk_Run EXIT_FAILURE [] None)
  /\ (exit_code (mk_Run EXIT_FAILURE [] None) = EXIT_SUCCESS <-> print_help = EmptyString).
Proof.
  split; [reflexivity|].
  apply (main_reports_every_failure (one_file "in" [x80]) ["rotate"; "left"; "in"]%string).
  reflexivity.
Defined.

(** X16.  [parse_instruction] looks at no more than the first six
    characters of the token: the result is the one for the token cut
    after six characters. *)
Theorem parse_instruction_reads_six_characters (s : string) :
  parse_instruction s = parse_instruction (CStr.chars 6 s).
Proof.
  assert (Hlen : CStr.strnlen (CStr.chars 6 s) 6 = CStr.strnlen s 6).
  { rewrite <- !chars_length. rewrite chars_chars by lia. reflexivity. }
  assert (HL : parse_instruction s = Some LEFT
               <-> parse_instruction (CStr.chars 6 s) = Some LEFT).
  { rewrite !parse_left_iff, Hlen. rewrite chars_chars by lia. reflexivity. }
  assert (HR : parse_instruction s = Some RIGHT
               <-> parse_instruction (CStr.chars 6 s) = Some RIGHT).
  { rewrite !parse_right_iff. rewrite chars_chars by lia. reflexivity. }
  destruct (parse_instruction s) as [[|]|];
    destruct (parse_instruction (CStr.chars 6 s)) as [[|]|];
    try reflexivity;
    try (apply HL; reflexivity); try (apply HR; reflexivity);
    try (symmetry; apply HL; reflexivity); try (symmetry; apply HR; reflexivity).
Qed.

(** X17.  [parse_instruction] returns no instruction for a token of more
    than five characters and for a token of fewer than four. *)
Theorem parse_instruction_rejects_by_length (s : string) :
  (5 < CStr.strnlen s 6)%nat \/ (CStr.strnlen s 4 < 4)%nat ->
  parse_instruction s = None.
Proof.
  intros H. destruct (parse_instruction s) as [[|]|] eqn:E; [| |reflexivity]; exfalso.
  - apply parse_left_iff in E. destruct E as [E4 E6].
    assert (H4 : CStr.strnlen s 4 = 4%nat) by (rewrite <- chars_length, E4; reflexivity).
    lia.
  - apply parse_right_iff in E.
    assert (H6 : CStr.strnlen s 6 = 5%nat) by (rewrite <- chars_length, E; reflexivity).
    assert (H4 : CStr.strnlen s 4 = 4%nat).
    { rewrite <- chars_length, <- (chars_chars 4 6 s) by lia. rewrite E. reflexivity. }
    lia.
Qed.

Lemma parse_instruction_rejects_by_length_witness :
  ((5 < CStr.strnlen "leftmost" 6)%nat \/ (CStr.strnlen "leftmost" 4 < 4)%nat)
  /\ parse_instruction "leftmost" = None.
Proof.
  split; [left; simpl; lia|].
  apply (parse_instruction_rejects_by_length "leftmost"). left. simpl. lia.
Defined.

(** X19.  For every byte sequence of at most [INT_MAX] bytes and every
    index [i] below its length [N], the left branch of [rotate] writes
    [out[i] = ((in[i] << 1 | in[i] >> 7) & 0xFE) | (in[(i+1) mod N] >> 7)]
    on 8-bit unsigned values, the next byte of the last one being byte
    0; the output has [N] bytes. *)
Theorem left_rotation_reference (b : list byte) :
  Z.of_nat (List.length b) <= INT_MAX ->
  exists out : list byte,
    rotate_bytes b LEFT = Finished out
    /\ List.length out = List.length b
    /\ forall i : nat,
        (i < List.length b)%nat ->
        U8.of_byte (nth i out x00)
        = Reference.left_byte (Reference.at_index b i)
            (Reference.at_index b ((i + 1) mod List.length b)%nat).
Proof.
  intros Hb. exists (Reference.rotate b LEFT). split; [|split].
  - rewrite rotate_bytes_small by exact Hb. rewrite pure_rot_reference. reflexivity.
  - apply reference_length.
  - intros i Hi. apply reference_left_index. exact Hi.
Qed.

(** X19 at the two-byte file [[0x80, 0x01]]. *)
Lemma left_rotation_reference_witness :
  Z.of_nat (List.length [x80; x01]) <= INT_MAX
  /\ exists out : list byte,
      rotate_bytes [x80; x01] LEFT = Finished out
      /\ List.length out = List.length [x80; x01]
      /\ forall i : nat,
          (i < List.length [x80; x01])%nat ->
          U8.of_byte (nth i out x00)
          = Reference.left_byte (Reference.at_index [x80; x01] i)
              (Reference.at_index [x80; x01] ((i + 1) mod List.length [x80; x01])%nat).
Proof.
  split; [vm_compute; discriminate|].
  apply (left_rotation_reference [x80; x01]). vm_compute. discriminate.
Defined.

(** X20.  For every byte sequence of at most [INT_MAX] bytes and every
    index [i] below its length [N], the right branch of [rotate] writes
    [out[i] = ((in[i] >> 1 | in[i] << 7) & 0x7F) |
    ((in[(i-1+N) mod N] & 0x01) << 7)] on 8-bit unsigned values, the
    previous byte of byte 0 being byte [N-1]; the output has [N] bytes. *)
Theorem right_rotation_reference (b : list byte) :
  Z.of_nat (List.length b) <= INT_MAX ->
  exists out : list byte,
    rotate_bytes b RIGHT = Finished out
    /\ List.length out = List.length b
    /\ forall i : nat,
        (i < List.length b)%nat ->
        U8.of_byte (nth i out x00)
        = Reference.right_byte (Reference.at_index b i)
            (Reference.at_index b ((i + List.length b - 1) mod List.length b)%nat).
Proof.
  intros Hb. exists (Reference.rotate b RIGHT). split; [|split].
  - rewrite rotate_bytes_small by exact Hb. rewrite pure_rot_reference. reflexivity.
  - apply reference_length.
  - intros i Hi. apply reference_right_index. exact Hi.
Qed.

(** X20 at the two-byte file [[0x01, 0x80]]. *)
Lemma right_rotation_reference_witness :
  Z.of_nat (List.length [x01; x80]) <= INT_MAX
  /\ exists out : list byte,
      rotate_bytes [x01; x80] RIGHT = Finished out
      /\ List.length out = List.length [x01; x80]
      /\ forall i : nat,
          (i < List.length [x01; x80])%nat ->
          U8.of_byte (nth i out x00)
          = Reference.right_byte (Reference.at_index [x01; x80] i)
              (Reference.at_index [x01; x80]
                 ((i + List.length [x01; x80] - 1) mod List.length [x01; x80])%nat).
Proof.
  split; [vm_compute; discriminate|].
  apply (right_rotation_reference [x01; x80]). vm_compute. discriminate.
Defined.

(** X21.  For every byte sequence of at most [INT_MAX] bytes, the empty
    one included, and both directions, [rotate] finishes with an output
    of the input's length. *)
Theorem rotate_preserves_length (b : list byte) (d : Instruction) :
  Z.of_nat (List.length b) <= INT_MAX ->
  outcome_map (@List.length byte) (rotate_bytes b d) = Finished (List.length b).
Proof.
  intros Hb. rewrite rotate_bytes_small by exact Hb.
  cbn [outcome_map]. rewrite pure_rot_length. reflexivity.
Qed.

(** X21 at a three-byte file, to the right. *)
Lemma rotate_preserves_length_witness :
  Z.of_nat (List.length [x01; x02; x03]) <= INT_MAX
  /\ outcome_map (@List.length byte) (rotate_bytes [x01; x02; x03] RIGHT)
     = Finished (List.length [x01; x02; x03]).
Proof.
  split; [vm_compute; discriminate|].
  apply (rotate_preserves_length [x01; x02; x03] RIGHT). vm_compute. discriminate.
Defined.

(** X22.  For every byte sequence of at most [INT_MAX] bytes, rotating
    left then right returns it unchanged, and so does rotating right
    then left. *)
Theorem rotations_are_inverse (b : list byte) :
  Z.of_nat (List.length b) <= INT_MAX ->
  outcome_bind (rotate_bytes b LEFT) (fun c => rotate_bytes c RIGHT) = Finished b
  /\ outcome_bind (rotate_bytes b RIGHT) (fun c => rotate_bytes c LEFT) = Finished b.
Proof.
  intros Hb. split.
  - rewrite rotate_bytes_small by exact Hb. cbn [outcome_bind].
    rewrite rotate_bytes_small by (rewrite pure_rot_length; exact Hb).
    cbn [pure_rot]. rewrite right_rot_left_rot. reflexivity.
  - rewrite rotate_bytes_small by exact Hb. cbn [outcome_bind].
    rewrite rotate_bytes_small by (rewrite pure_rot_length; exact Hb).
    cbn [pure_rot]. rewrite left_rot_right_rot. reflexivity.
Qed.

(** X22 at the three-byte file [[0x81, 0x00, 0xff]]. *)
Lemma rotations_are_inverse_witness :
  Z.of_nat (List.length [x81; x00; xff]) <= INT_MAX
  /\ outcome_bind (rotate_bytes [x81; x00; xff] LEFT) (fun c => rotate_bytes c RIGHT)
     = Finished [x81; x00; xff]
  /\ outcome_bind (rotate_bytes [x81; x00; xff] RIGHT) (fun c => rotate_bytes c LEFT)
     = Finished [x81; x00; xff].
Proof.
  split; [vm_compute; discriminate|].
  apply (rotations_are_inverse [x81; x00; xff]). vm_compute. discriminate.
Defined.

(** X23.  For every byte sequence [b] of at most [INT_MAX] bytes and
    either direction, applying [rotate] [8 * len(b)] times in succession
    returns [b] unchanged. *)
Theorem full_cycle (b : list byte) (d : Instruction) :
  Z.of_nat (List.length b) <= INT_MAX ->
  rotate_times (8 * List.length b) d b = Finished b.
Proof.
  intros Hb. rewrite rotate_times_small by exact Hb. f_equal.
  destruct d; [apply left_rot_full_cycle | apply right_rot_full_cycle].
Qed.

(** X23 at the two-byte file [[0x80, 0x01]], sixteen rotations to the
    right. *)
Lemma full_cycle_witness :
  Z.of_nat (List.length [x80; x01]) <= INT_MAX
  /\ rotate_times (8 * List.length [x80; x01]) RIGHT [x80; x01] = Finished [x80; x01].
Proof.
  split; [vm_compute; discriminate|].
  apply (full_cycle [x80; x01] RIGHT). vm_compute. discriminate.
Defined.
